(** * Skottie text layer: font declarations, typeface resolution, glyph outlines

    A shallow embedding of [modules/skottie/src/layers/TextLayer.cpp]:
    the style token parser [FontStyle], the glyph outline extractor
    [parse_glyph_path], [AnimationBuilder::FontInfo::matches] and the three
    passes of [AnimationBuilder::parseFonts].

    Conventions of the embedding.
    - A [const char*] is the [string] of the characters before its
      terminator; [SkString::c_str] is [c_str].
    - A nullable pointer is an [option]; a JSON value converted to a typed
      pointer ([const skjson::ObjectValue*] and the like) is [None] when the
      value has another type.
    - [this->log] appends to a log that is threaded through the code by a
      writer monad, [Logged].
    - The lambdas given to [fFonts.foreach] capture local variables by
      reference; the captured variables are passed as an explicit state. *)

From Stdlib Require Import String Ascii ZArith List Lia.
From Stdlib Require Import SpecFloat.
From Stdlib Require QArith.
From stdpp Require Import base option list strings gmap.

Local Open Scope string_scope.
Local Open Scope list_scope.

(** ** C strings *)

(** The characters of [s] before the first NUL: what a reader of
    [s.c_str()] sees. *)
Fixpoint c_str (s : string) : string :=
  match s with
  | EmptyString => EmptyString
  | String c s' => if Ascii.eqb c "000"%char then EmptyString else String c (c_str s')
  end.

(** [style += n]. Only used with [n] at most the length of [s]. *)
Fixpoint skip (n : nat) (s : string) : string :=
  match n, s with
  | O, _ => s
  | S n', String _ s' => skip n' s'
  | S _, EmptyString => EmptyString
  end.

(** [*style == '\0']. *)
Definition at_end (style : string) : bool :=
  match style with EmptyString => true | String _ _ => false end.

(** [!strncmp(style, name, strlen(name))] for a [name] without NUL: the
    first [strlen(name)] characters of [style] are those of [name]. *)
Definition strncmp_eq (style name : string) : bool := String.prefix name style.

(** [!strcmp(a, b)] on two C strings. *)
Definition strcmp_eq (a b : string) : bool := String.eqb a b.

(** ** SkFontStyle *)

Inductive Weight :=
| kInvisible_Weight | kThin_Weight | kExtraLight_Weight | kLight_Weight
| kNormal_Weight | kMedium_Weight | kSemiBold_Weight | kBold_Weight
| kExtraBold_Weight | kBlack_Weight | kExtraBlack_Weight.

Inductive Width :=
| kUltraCondensed_Width | kExtraCondensed_Width | kCondensed_Width
| kSemiCondensed_Width | kNormal_Width | kSemiExpanded_Width
| kExpanded_Width | kExtraExpanded_Width | kUltraExpanded_Width.

Inductive Slant := kUpright_Slant | kItalic_Slant | kOblique_Slant.

Record SkFontStyle := mkSkFontStyle {
  weight : Weight;
  width : Width;
  slant : Slant
}.

(** The tables of [FontStyle], in the order of the source. *)
Definition gWeightMap : list (string * Weight) :=
  [ ("Regular"   , kNormal_Weight)
  ; ("Medium"    , kMedium_Weight)
  ; ("Bold"      , kBold_Weight)
  ; ("Light"     , kLight_Weight)
  ; ("Black"     , kBlack_Weight)
  ; ("Thin"      , kThin_Weight)
  ; ("Extra"     , kExtraBold_Weight)
  ; ("ExtraBold" , kExtraBold_Weight)
  ; ("ExtraLight", kExtraLight_Weight)
  ; ("ExtraBlack", kExtraBlack_Weight)
  ; ("SemiBold"  , kSemiBold_Weight)
  ; ("Hairline"  , kThin_Weight)
  ; ("Normal"    , kNormal_Weight)
  ; ("Plain"     , kNormal_Weight)
  ; ("Standard"  , kNormal_Weight)
  ; ("Roman"     , kNormal_Weight)
  ; ("Heavy"     , kBlack_Weight)
  ; ("Demi"      , kSemiBold_Weight)
  ; ("DemiBold"  , kSemiBold_Weight)
  ; ("Ultra"     , kExtraBold_Weight)
  ; ("UltraBold" , kExtraBold_Weight)
  ; ("UltraBlack", kExtraBlack_Weight)
  ; ("UltraHeavy", kExtraBlack_Weight)
  ; ("UltraLight", kExtraLight_Weight) ].

Definition gSlantMap : list (string * Slant) :=
  [ ("Italic" , kItalic_Slant)
  ; ("Oblique", kOblique_Slant) ].

(** The loop over [gWeightMap]: the first entry whose name starts [style]
    sets the weight and is consumed; the loop stops there ([break]). *)
Fixpoint scan_weights (tbl : list (string * Weight)) (weight : Weight)
    (style : string) : Weight * string :=
  match tbl with
  | [] => (weight, style)
  | (fName, fWeight) :: tbl' =>
      if strncmp_eq style fName
      then (fWeight, skip (String.length fName) style)
      else scan_weights tbl' weight style
  end.

(** The loop over [gSlantMap]: the first entry whose name is all of
    [style] sets the slant and is consumed. *)
Fixpoint scan_slants (tbl : list (string * Slant)) (slant : Slant)
    (style : string) : Slant * string :=
  match tbl with
  | [] => (slant, style)
  | (fName, fSlant) :: tbl' =>
      if strcmp_eq style fName
      then (fSlant, skip (String.length fName) style)
      else scan_slants tbl' slant style
  end.

(** ** Logger *)

Inductive Level := kWarning | kError.

Section Skottie.

(** ** What the file uses and does not define

    [float] and its product are kept abstract: the code only multiplies by
    the constant [kPtScale] and passes the values on. [Binary32], at the
    end, takes them to be the IEEE 754 binary32 numbers. *)
Variable SkScalar : Type.
(** [a * b] on [float]. *)
Variable SkScalarMul : SkScalar -> SkScalar -> SkScalar.
(** [static constexpr float kPtScale = 0.01f]. *)
Variable kPtScale : SkScalar.
(** [0.0f], the default given to [ParseDefault]. *)
Variable SK_Scalar0 : SkScalar.

(** ** JSON values (skjson), as an already parsed tree *)

#[local] Set Warnings "-register-all".

Inductive json :=
| JNull
| JBool (b : bool)
| JNumber (x : SkScalar)
| JString (s : string)
| JArray (vs : list json)
| JObject (ms : gmap string json).

(** [skjson::ObjectValue] and [skjson::ArrayValue]. *)
Abbreviation ObjectValue := (gmap string json).
Abbreviation ArrayValue := (list json).

(** [obj[key]]: the member, or the null value when there is none. *)
Definition member (obj : ObjectValue) (key : string) : json :=
  default JNull (obj !! key).

(** Conversions of a value to a typed pointer: null on another type. *)
Definition as_object (v : json) : option ObjectValue :=
  match v with JObject ms => Some ms | _ => None end.

Definition as_array (v : json) : option ArrayValue :=
  match v with JArray vs => Some vs | _ => None end.

Definition as_string (v : json) : option string :=
  match v with JString s => Some s | _ => None end.

(** Modelled from the spec: [ParseDefault<float>(v, defaultValue)] is code
    of SkottieJson.cpp, which is not part of the sources; "ascent
    (numeric, defaults to 0)", "optional numeric w (advance)": the number
    when the value is one, [defaultValue] otherwise. *)
Definition ParseDefault (v : json) (defaultValue : SkScalar) : SkScalar :=
  match v with JNumber x => x | _ => defaultValue end.

(** ** Paths

    Modelled from the spec: [SkPath] is not part of the sources; a path is
    the sequence of its segments, [addPath] appends ("simple union-append")
    and scaling multiplies every coordinate. *)
Record SkPoint := mkSkPoint { fX : SkScalar; fY : SkScalar }.

Inductive PathSegment :=
| kMove (p : SkPoint)
| kLine (p : SkPoint)
| kQuad (p1 p2 : SkPoint)
| kCubic (p1 p2 p3 : SkPoint)
| kClose.

Definition SkPath := list PathSegment.

Definition addPath (path src : SkPath) : SkPath := path ++ src.

Definition scale_point (sx sy : SkScalar) (p : SkPoint) : SkPoint :=
  mkSkPoint (SkScalarMul (fX p) sx) (SkScalarMul (fY p) sy).

Definition scale_segment (sx sy : SkScalar) (s : PathSegment) : PathSegment :=
  match s with
  | kMove p => kMove (scale_point sx sy p)
  | kLine p => kLine (scale_point sx sy p)
  | kQuad p1 p2 => kQuad (scale_point sx sy p1) (scale_point sx sy p2)
  | kCubic p1 p2 p3 =>
      kCubic (scale_point sx sy p1) (scale_point sx sy p2) (scale_point sx sy p3)
  | kClose => kClose
  end.

(** [path.transform(SkMatrix::Scale(sx, sy))]. *)
Definition transform_scale (sx sy : SkScalar) (path : SkPath) : SkPath :=
  map (scale_segment sx sy) path.

(** ** Typefaces and the custom typeface builder

    Modelled from the spec: [SkCustomTypefaceBuilder] is not part of the
    sources. The builder accumulates (glyph ID, advance, path); [detach]
    turns the accumulated glyphs into a typeface and leaves the builder
    empty; "a font with zero glyphs submitted yields a failed/empty
    result". *)
Definition SkGlyphID := Z.

Record GlyphRec := mkGlyphRec {
  fGlyph : SkGlyphID;
  fAdvance : SkScalar;
  fGlyphPath : SkPath
}.

Definition SkCustomTypefaceBuilder := list GlyphRec.

Inductive SkTypeface :=
| NativeTypeface (handle : nat)
| UserTypeface (glyphs : list GlyphRec).

Fixpoint setGlyph (b : SkCustomTypefaceBuilder) (index : SkGlyphID)
    (adv : SkScalar) (path : SkPath) : SkCustomTypefaceBuilder :=
  match b with
  | [] => [mkGlyphRec index adv path]
  | g :: b' =>
      if Z.eqb (fGlyph g) index then mkGlyphRec index adv path :: b'
      else g :: setGlyph b' index adv path
  end.

Definition detach (b : SkCustomTypefaceBuilder)
    : option SkTypeface * SkCustomTypefaceBuilder :=
  match b with
  | [] => (None, [])
  | _ :: _ => (Some (UserTypeface b), [])
  end.

(** ** Collaborators *)

(** [abuilder->attachPath(v)] inside an [AutoScope]: the path of the node
    it returns (null when there is none) and the animators the scope
    recorded. *)
Variable Animator : Type.
Variable attachPath : json -> option SkPath * list Animator.

(** [SkUTF::CountUTF8] (-1 on malformed input) and [SkUTF::NextUTF8]. *)
Variable CountUTF8 : string -> Z.
Variable NextUTF8 : string -> Z.

(** [fmgr->makeFromData(fResourceProvider->loadFont(name, path))]. *)
Variable makeFromLoadedFont : string -> string -> option SkTypeface.
(** [fmgr->matchFamilyStyle(family, style)]. *)
Variable matchFamilyStyle : string -> SkFontStyle -> option SkTypeface.
(** [fmgr->legacyMakeTypeface(nullptr, style)]. *)
Variable legacyMakeTypeface : SkFontStyle -> option SkTypeface.

(** ** The log *)

Inductive Message :=
| UnknownFontStyle (style : string)
    (* "Unknown font style: %s." *)
| InvalidFont (jfont : ObjectValue)
    (* "Invalid font." *)
| CouldNotCreateTypeface (family style : string)
    (* "Could not create typeface for %s|%s." *)
| InvalidGlyph (jchar : ObjectValue)
    (* "Invalid glyph." *)
| UnsupportedGlyphID (jchar : ObjectValue)
    (* "Unsupported glyph ID." *)
| FontNotFound (uni : Z) (family style : string)
    (* "Font not found for codepoint (%d, %s, %s)." *).

(** The two resolution passes. An [Enter] event is not in the source: it
    marks, in the log, the point where a pass is called, so that the
    order of the passes can be read off a run. *)
Inductive Pass := NativePass | EmbeddedPass.

Inductive Event :=
| Log (lvl : Level) (msg : Message)
| Enter (p : Pass).

(** Code that logs: a value and the events it appended. *)
Definition Logged (A : Type) : Type := A * list Event.

#[local] Instance Logged_ret : MRet Logged := fun A a => (a, []).
#[local] Instance Logged_bind : MBind Logged := fun A B f m =>
  let '(a, l1) := m in let '(b, l2) := f a in (b, l1 ++ l2).

Definition log (lvl : Level) (msg : Message) : Logged unit := (tt, [Log lvl msg]).
Definition enter (p : Pass) : Logged unit := (tt, [Enter p]).

Definition is_Some_b {A} (o : option A) : bool :=
  match o with Some _ => true | None => false end.

Definition value {A} (m : Logged A) : A := fst m.
Definition events {A} (m : Logged A) : list Event := snd m.

(** ** [FontStyle] (lines 30-95) *)

Definition FontStyle (style : string) : Logged SkFontStyle :=
  let '(weight, style) := scan_weights gWeightMap kNormal_Weight style in
  let '(slant, style) :=
    if negb (at_end style) then scan_slants gSlantMap kUpright_Slant style
    else (kUpright_Slant, style) in
  _ ← (if negb (at_end style) then log kWarning (UnknownFontStyle style)
       else mret tt);
  mret (mkSkFontStyle weight kNormal_Width slant).

(** ** [parse_glyph_path] (lines 97-159)

    [path] is the out-parameter: the function returns its result and the
    path as it leaves it. *)

(** The loop over the items of one group (lines 138-155). *)
Fixpoint parse_glyph_items (jit : ArrayValue) (path : SkPath) : bool * SkPath :=
  match jit with
  | [] => (true, path)
  | v :: jit' =>
      match as_object v with
      | None => (false, path)
      | Some jshape =>
          let '(path_node, animators) := attachPath (member jshape "ks") in
          match path_node, animators with
          | Some node_path, [] => parse_glyph_items jit' (addPath path node_path)
          | _, _ => (false, path)
          end
      end
  end.

(** The loop over the groups (lines 128-156). *)
Fixpoint parse_glyph_groups (jshapes : ArrayValue) (path : SkPath) : bool * SkPath :=
  match jshapes with
  | [] => (true, path)
  | v :: jshapes' =>
      match as_object v with
      | None => (false, path)
      | Some jgrp =>
          match as_array (member jgrp "it") with
          | None => (false, path)
          | Some jit =>
              let '(ok, path') := parse_glyph_items jit path in
              if ok then parse_glyph_groups jshapes' path' else (false, path')
          end
      end
  end.

Definition parse_glyph_path (jdata : option ObjectValue) (path : SkPath)
    : bool * SkPath :=
  match jdata with
  | None => (false, path)
  | Some jdata =>
      match as_array (member jdata "shapes") with
      | None => (true, path)      (* Space/empty glyph. *)
      | Some jshapes => parse_glyph_groups jshapes path
      end
  end.

(** ** [AnimationBuilder::FontInfo] *)

Record FontInfo := mkFontInfo {
  fFamily : string;
  fStyle : string;
  fPath : string;
  fAscentPct : SkScalar;
  fTypeface : option SkTypeface;
  fCustomBuilder : SkCustomTypefaceBuilder
}.

(** [finfo->matches(family, style)] (lines 163-166). *)
Definition matches (finfo : FontInfo) (family style : string) : bool :=
  strcmp_eq (c_str (fFamily finfo)) family
  && strcmp_eq (c_str (fStyle finfo)) style.

Definition with_typeface (finfo : FontInfo) (tf : option SkTypeface) : FontInfo :=
  mkFontInfo (fFamily finfo) (fStyle finfo) (fPath finfo) (fAscentPct finfo)
             tf (fCustomBuilder finfo).

Definition with_builder (finfo : FontInfo) (b : SkCustomTypefaceBuilder) : FontInfo :=
  mkFontInfo (fFamily finfo) (fStyle finfo) (fPath finfo) (fAscentPct finfo)
             (fTypeface finfo) b.

(** ** The font registry [fFonts]

    Modelled from the spec: [SkTHashMap] is not part of the sources. The
    registry is "an insertion-ordered mapping from declared font name to
    font metadata": [set] replaces the value of a name that is present and
    adds a new name at the end, [find] is the lookup by name, and [foreach]
    visits the entries "in insertion order". *)
Abbreviation FontMap := (list (string * FontInfo)).

Fixpoint FontMap_set (fonts : FontMap) (name : string) (finfo : FontInfo) : FontMap :=
  match fonts with
  | [] => [(name, finfo)]
  | (k, v) :: fonts' =>
      if String.eqb k name then (name, finfo) :: fonts'
      else (k, v) :: FontMap_set fonts' name finfo
  end.

Fixpoint FontMap_find (fonts : FontMap) (name : string) : option FontInfo :=
  match fonts with
  | [] => None
  | (k, v) :: fonts' => if String.eqb k name then Some v else FontMap_find fonts' name
  end.

(** [fonts.foreach(fn)]. The lambda [fn] receives the entry's name and a
    pointer to its [FontInfo], which it may update; [slot], the position
    of the entry, stands for that pointer; [s] is the state the lambda
    captured by reference. *)
Fixpoint foreach_from {S : Type}
    (fn : nat -> string -> FontInfo -> S -> Logged (FontInfo * S))
    (slot : nat) (fonts : FontMap) (s : S) : Logged (FontMap * S) :=
  match fonts with
  | [] => mret ([], s)
  | (name, finfo) :: fonts' =>
      '(finfo', s') ← fn slot name finfo s;
      '(fonts'', s'') ← foreach_from fn (Datatypes.S slot) fonts' s';
      mret ((name, finfo') :: fonts'', s'')
  end.

Definition foreach {S : Type}
    (fn : nat -> string -> FontInfo -> S -> Logged (FontInfo * S))
    (fonts : FontMap) (s : S) : Logged (FontMap * S) :=
  foreach_from fn 0 fonts s.

(** ** [AnimationBuilder::resolveNativeTypefaces] (lines 248-286) *)

(** The lambda of line 251; it captures [has_unresolved]. *)
Definition resolve_native (slot : nat) (name : string) (finfo : FontInfo)
    (has_unresolved : bool) : Logged (FontInfo * bool) :=
  match fTypeface finfo with
  | Some _ => mret (finfo, has_unresolved)   (* Already resolved from glyph paths. *)
  | None =>
      match makeFromLoadedFont (c_str name) (c_str (fPath finfo)) with
      | Some tf => mret (with_typeface finfo (Some tf), has_unresolved)
      | None =>
          fs ← FontStyle (c_str (fStyle finfo));
          match matchFamilyStyle (c_str (fFamily finfo)) fs with
          | Some tf => mret (with_typeface finfo (Some tf), has_unresolved)
          | None =>
              _ ← log kError (CouldNotCreateTypeface (c_str (fFamily finfo))
                                                     (c_str (fStyle finfo)));
              fs' ← FontStyle (c_str (fStyle finfo));
              let tf := legacyMakeTypeface fs' in
              mret (with_typeface finfo tf, has_unresolved || negb (is_Some_b tf))
          end
      end
  end.

Definition resolveNativeTypefaces (fFonts : FontMap) : Logged (bool * FontMap) :=
  _ ← enter NativePass;
  '(fFonts, has_unresolved) ← foreach resolve_native fFonts false;
  mret (negb has_unresolved, fFonts).

(** ** [AnimationBuilder::resolveEmbeddedTypefaces] (lines 288-387) *)

(** [SkTFitsIn<SkGlyphID>(uni)]: [SkGlyphID] is [uint16_t]. *)
Definition SkTFitsIn_SkGlyphID (uni : Z) : bool :=
  (0 <=? uni)%Z && (uni <=? 65535)%Z.

(** The lambda of line 344; it captures [current_font] (and [family],
    [style], which it only reads). *)
Definition find_matching (family style : string) (slot : nat) (name : string)
    (finfo : FontInfo) (current_font : option nat) : Logged (FontInfo * option nat) :=
  mret (finfo, if matches finfo family style then Some slot else current_font).

(** [current_font->matches(family, style)] behind the pointer. *)
Definition current_matches (fFonts : FontMap) (current_font : option nat)
    (family style : string) : bool :=
  match current_font with
  | None => false
  | Some slot =>
      match fFonts !! slot with
      | Some (_, finfo) => matches finfo family style
      | None => false
      end
  end.

(** Lines 343-349: [current_font = nullptr] and the scan of the registry;
    the value of [current_font] after it. *)
Definition scan_fonts (fFonts : FontMap) (family style : string) : option nat :=
  snd (value (foreach (find_matching family style) fFonts None)).

(** Lines 342-349: the value of [current_font] after the lookup. *)
Definition locate_font (fFonts : FontMap) (current_font : option nat)
    (family style : string) : option nat :=
  if negb (current_matches fFonts current_font family style)
  then scan_fonts fFonts family style
  else current_font.

(** [current_font->fCustomBuilder.setGlyph(glyph_id, advance, path)]. *)
Definition set_font_glyph (fFonts : FontMap) (slot : nat) (glyph_id : SkGlyphID)
    (adv : SkScalar) (path : SkPath) : FontMap :=
  match fFonts !! slot with
  | Some (name, finfo) =>
      <[slot := (name, with_builder finfo
                         (setGlyph (fCustomBuilder finfo) glyph_id adv path))]> fFonts
  | None => fFonts
  end.

(** The body of the loop over [jchars] (lines 304-372); the state is the
    registry and [current_font]. *)
Definition embed_glyph (st : FontMap * option nat) (v : json)
    : Logged (FontMap * option nat) :=
  let '(fFonts, current_font) := st in
  match as_object v with
  | None => mret st
  | Some jchar =>
      match as_string (member jchar "ch") with
      | None => mret st
      | Some jch =>
          match as_string (member jchar "fFamily"),
                as_string (member jchar "style") with
          | Some jfamily, Some jstyle =>
              if negb (CountUTF8 jch =? 1)%Z
              then _ ← log kError (InvalidGlyph jchar); mret st
              else
                let uni := NextUTF8 jch in
                if negb (SkTFitsIn_SkGlyphID uni)
                then _ ← log kError (UnsupportedGlyphID jchar); mret st
                else
                  let glyph_id : SkGlyphID := uni in
                  let family := c_str jfamily in
                  let style := c_str jstyle in
                  match locate_font fFonts current_font family style with
                  | None =>
                      _ ← log kError (FontNotFound uni family style);
                      mret (fFonts, None)
                  | Some slot =>
                      let '(ok, path) :=
                        parse_glyph_path (as_object (member jchar "data")) [] in
                      if negb ok then mret (fFonts, Some slot)
                      else
                        let adv := ParseDefault (member jchar "w") SK_Scalar0 in
                        let path := transform_scale kPtScale kPtScale path in
                        mret (set_font_glyph fFonts slot glyph_id
                                             (SkScalarMul adv kPtScale) path,
                              Some slot)
                  end
          | _, _ => _ ← log kError (InvalidGlyph jchar); mret st
          end
      end
  end.

(** A [for] loop over a JSON array whose body updates a state and logs. *)
Fixpoint for_each {St : Type} (body : St -> json -> Logged St)
    (vs : ArrayValue) (st : St) : Logged St :=
  match vs with
  | [] => mret st
  | v :: vs' => st' ← body st v; for_each body vs' st'
  end.

(** The lambda of line 376 ("Final pass to commit custom typefaces"). *)
Definition commit_custom (slot : nat) (name : string) (finfo : FontInfo)
    (has_unresolved : bool) : Logged (FontInfo * bool) :=
  match fTypeface finfo with
  | Some _ => mret (finfo, has_unresolved)   (* already resolved *)
  | None =>
      let '(tf, b) := detach (fCustomBuilder finfo) in
      mret (with_builder (with_typeface finfo tf) b,
            has_unresolved || negb (is_Some_b tf))
  end.

Definition resolveEmbeddedTypefaces (jchars : ArrayValue) (fFonts : FontMap)
    : Logged (bool * FontMap) :=
  _ ← enter EmbeddedPass;
  '(fFonts, _) ← for_each embed_glyph jchars (fFonts, None);
  '(fFonts, has_unresolved) ← foreach commit_custom fFonts false;
  mret (negb has_unresolved, fFonts).

(** ** [AnimationBuilder::parseFonts] (lines 177-246) *)

(** The body of the first pass (lines 203-229). *)
Definition collect_font (fFonts : FontMap) (v : json) : Logged FontMap :=
  match as_object v with
  | None => mret fFonts
  | Some jfont =>
      let jpath := as_string (member jfont "fPath") in
      match as_string (member jfont "fName"),
            as_string (member jfont "fFamily"),
            as_string (member jfont "fStyle") with
      | Some jname, Some jfamily, Some jstyle =>
          if Nat.eqb (String.length jname) 0
             || Nat.eqb (String.length jfamily) 0
             || Nat.eqb (String.length jstyle) 0
          then _ ← log kError (InvalidFont jfont); mret fFonts
          else
            mret (FontMap_set fFonts jname
                    (mkFontInfo jfamily jstyle (default EmptyString jpath)
                                (ParseDefault (member jfont "ascent") SK_Scalar0)
                                None []))
      | _, _, _ => _ ← log kError (InvalidFont jfont); mret fFonts
      end
  end.

(** [kPreferEmbeddedFonts] is the bit of [fFlags] the function reads. *)
Definition parseFonts (kPreferEmbeddedFonts : bool)
    (jfonts : option ObjectValue) (jchars : option ArrayValue)
    (fFonts : FontMap) : Logged FontMap :=
  match jfonts ≫= (fun o => as_array (member o "list")) with
  | None => mret fFonts
  | Some jlist =>
      (* First pass: collect font info. *)
      fFonts ← for_each collect_font jlist fFonts;
      (* Optional pass. *)
      '(done, fFonts) ←
        match jchars with
        | Some jchars' =>
            if kPreferEmbeddedFonts then resolveEmbeddedTypefaces jchars' fFonts
            else mret (false, fFonts)
        | None => mret (false, fFonts)
        end;
      if done : bool then mret fFonts
      else
        (* Native typeface resolution. *)
        '(done, fFonts) ← resolveNativeTypefaces fFonts;
        if done : bool then mret fFonts
        else
          (* Embedded typeface fallback. *)
          match jchars with
          | Some jchars' =>
              if negb kPreferEmbeddedFonts
              then '(_, fFonts) ← resolveEmbeddedTypefaces jchars' fFonts; mret fFonts
              else mret fFonts
          | None => mret fFonts
          end
  end.

(** [AnimationBuilder::findFont] (lines 398-400). *)
Definition findFont (fFonts : FontMap) (font_name : string) : option FontInfo :=
  FontMap_find fFonts font_name.

(** * Predicates of the statements *)

(** The tokens of [gWeightMap] that no earlier token is a prefix of. *)
Definition unshadowed (name : string) : bool :=
  match find (fun e => String.prefix (fst e) name) gWeightMap with
  | Some e => String.eqb (fst e) name
  | None => false
  end.

(** The pairs (style string, expected style) for every unshadowed weight
    token followed by nothing, ["Italic"] or ["Oblique"]. *)
Definition token_styles : list (string * SkFontStyle) :=
  flat_map
    (fun e => map (fun sl => (String.append (fst e) (fst sl),
                              mkSkFontStyle (snd e) kNormal_Width (snd sl)))
                  ((EmptyString, kUpright_Slant) :: gSlantMap))
    (filter (fun e => unshadowed (fst e) = true) gWeightMap).

(** A shape item is rejected when [attachPath] gives no path node or
    records an animator. *)
Definition not_static (jshape : ObjectValue) : Prop :=
  fst (attachPath (member jshape "ks")) = None
  \/ snd (attachPath (member jshape "ks")) <> [].

(** The member [key] of a declaration is missing (or not a string) or
    empty. *)
Definition missing_or_empty (jfont : ObjectValue) (key : string) : Prop :=
  as_string (member jfont key) = None
  \/ as_string (member jfont key) = Some EmptyString.

(** The name a list entry declares, when it is a valid declaration: an
    object whose [fName], [fFamily] and [fStyle] are strings that are not
    empty. *)
Definition declared_name (v : json) : option string :=
  match as_object v with
  | None => None
  | Some jfont =>
      match as_string (member jfont "fName"),
            as_string (member jfont "fFamily"),
            as_string (member jfont "fStyle") with
      | Some jname, Some jfamily, Some jstyle =>
          if Nat.eqb (String.length jname) 0
             || Nat.eqb (String.length jfamily) 0
             || Nat.eqb (String.length jstyle) 0
          then None else Some jname
      | _, _, _ => None
      end
  end.

(** The entry of the registry a valid declaration describes. *)
Definition declared_info (jfont : ObjectValue) (jfamily jstyle : string) : FontInfo :=
  mkFontInfo jfamily jstyle
             (default EmptyString (as_string (member jfont "fPath")))
             (ParseDefault (member jfont "ascent") SK_Scalar0)
             None [].

(** The number of entries of the registry under [name]. *)
Definition entries_named (fonts : FontMap) (name : string) : nat :=
  length (filter (fun e => String.eqb (fst e) name = true) fonts).

(** From the words of the spec, for comparison: "linear scan over all
    entries returning first match". *)
Fixpoint spec_first_match_from (slot : nat) (fonts : FontMap)
    (family style : string) : option nat :=
  match fonts with
  | [] => None
  | (_, finfo) :: fonts' =>
      if matches finfo family style then Some slot
      else spec_first_match_from (S slot) fonts' family style
  end.

Definition spec_first_match (fonts : FontMap) (family style : string) : option nat :=
  spec_first_match_from 0 fonts family style.

(** What [current_font] holds between two glyph records: null, or the
    result of the scan for some earlier (family, style). *)
Definition cache_valid (fonts : FontMap) (current_font : option nat) : Prop :=
  current_font = None
  \/ exists family style, scan_fonts fonts family style = current_font.

(** The registry without the builders: names, metadata and typefaces. *)
Definition sans_builders (fonts : FontMap) : FontMap :=
  (fun e => (fst e, with_builder (snd e) [])) <$> fonts.

(** The entries of a table that [name] is related to: those that are a
    prefix of [name] and those that [name] is a prefix of. *)
Definition related (name : string) (e : string * Weight) : bool :=
  String.prefix (fst e) name || String.prefix name (fst e).

(** The [Enter] events of a log: the passes that were called, in order. *)
Fixpoint passes (l : list Event) : list Pass :=
  match l with
  | [] => []
  | Log _ _ :: l' => passes l'
  | Enter p :: l' => p :: passes l'
  end.

(** A shape item that [parse_glyph_path] accepts: an object whose ["ks"]
    gives a path node and records no animator. *)
Definition static_item (v : json) : Prop :=
  exists jshape node_path,
    as_object v = Some jshape
    /\ attachPath (member jshape "ks") = (Some node_path, []).

(** A group that [parse_glyph_path] accepts: an object with an ["it"]
    array of static items. *)
Definition static_group (v : json) : Prop :=
  exists jgrp jit,
    as_object v = Some jgrp /\ as_array (member jgrp "it") = Some jit
    /\ Forall static_item jit.

(** The path of the node of one item, and of the items of one group. *)
Definition item_path (v : json) : SkPath :=
  match as_object v with
  | Some jshape => default [] (fst (attachPath (member jshape "ks")))
  | None => []
  end.

Definition group_path (v : json) : SkPath :=
  match as_object v with
  | Some jgrp => flat_map item_path (default [] (as_array (member jgrp "it")))
  | None => []
  end.

(** What a declaration fixes of an entry of the registry: its name and
    its family, style, path and ascent. *)
Definition declaration (e : string * FontInfo)
    : string * (string * string * string * SkScalar) :=
  (fst e, (fFamily (snd e), fStyle (snd e), fPath (snd e), fAscentPct (snd e))).

(** Every font of the registry has a typeface. *)
Definition all_resolved (fonts : FontMap) : bool :=
  forallb (fun e => is_Some_b (fTypeface (snd e))) fonts.

(** The objects of a font list that are not valid declarations, in the
    order of the list. *)
Definition invalid_declarations (jlist : ArrayValue) : list ObjectValue :=
  omap (fun v => match declared_name v with
                 | Some _ => None
                 | None => as_object v
                 end) jlist.

(** The glyph loop without the font kept from the previous record: every
    record starts from [current_font = nullptr] and so scans the
    registry. *)
Definition embed_glyphs_scanning (jchars : ArrayValue) (fonts : FontMap) : FontMap :=
  foldl (fun fonts v => fst (value (embed_glyph (fonts, None) v))) fonts jchars.

(** A group at which [parse_glyph_path] fails after it has read the
    items [good]: it is not an object or has no ["it"] array (and then
    nothing was read of it), or its items are [good], all static,
    followed by an item that is not static. *)
Definition fails_after (vgrp : json) (good : ArrayValue) : Prop :=
  (as_object vgrp ≫= (fun jgrp => as_array (member jgrp "it")) = None
   /\ good = [])
  \/ exists jgrp vbad rest,
       as_object vgrp = Some jgrp
       /\ as_array (member jgrp "it") = Some (good ++ vbad :: rest)
       /\ Forall static_item good /\ ~ static_item vbad.

(** * Properties *)

(** ** The style token parser *)

(** C2, at the input the claim names: ["ExtraLight"] is read as the
    token ["Extra"], which stands before it in [gWeightMap]; the weight is
    ExtraBold, not ExtraLight, and ["Light"] is reported as unknown. *)
Theorem FontStyle_ExtraLight_is_read_as_Extra :
  FontStyle "ExtraLight"
  = (mkSkFontStyle kExtraBold_Weight kNormal_Width kUpright_Slant,
     [Log kWarning (UnknownFontStyle "Light")]).
Proof. reflexivity. Qed.

(** The same for the other example of the claim. *)
Lemma FontStyle_UltraBlack_is_read_as_Ultra :
  FontStyle "UltraBlack"
  = (mkSkFontStyle kExtraBold_Weight kNormal_Width kUpright_Slant,
     [Log kWarning (UnknownFontStyle "Black")]).
Proof. reflexivity. Qed.

(** With a slant token behind it, a shadowed weight token loses the slant
    too. *)
Lemma FontStyle_ExtraLightItalic :
  FontStyle "ExtraLightItalic"
  = (mkSkFontStyle kExtraBold_Weight kNormal_Width kUpright_Slant,
     [Log kWarning (UnknownFontStyle "LightItalic")]).
Proof. reflexivity. Qed.

(** On the sixteen weight tokens that are not shadowed, with or without
    a slant token, [FontStyle] returns the pair the tokens denote and
    logs nothing. *)
Lemma FontStyle_unshadowed_tokens :
  Forall (fun e => FontStyle (fst e) = (snd e, [])) token_styles.
Proof. repeat constructor. Qed.

Lemma shadowed_tokens :
  map fst (filter (fun e => unshadowed (fst e) = false) gWeightMap)
  = ["ExtraBold"; "ExtraLight"; "ExtraBlack"; "DemiBold";
     "UltraBold"; "UltraBlack"; "UltraHeavy"; "UltraLight"].
Proof. reflexivity. Qed.

(** C3, as amended: for ["BoldItalicFoo"] the weight is Bold; the slant
    stays upright, since a slant token is only recognised when it is the
    whole remainder, and the warning carries the residual ["ItalicFoo"]. *)
Theorem FontStyle_BoldItalicFoo :
  FontStyle "BoldItalicFoo"
  = (mkSkFontStyle kBold_Weight kNormal_Width kUpright_Slant,
     [Log kWarning (UnknownFontStyle "ItalicFoo")]).
Proof. reflexivity. Qed.

(** ** The glyph outline extractor *)

(** C1, as amended: a missing (null) input object makes the extraction
    fail, with the path left as it was; the success with an untouched
    (empty) path that stands for a space glyph is the result for every
    object that is present and has no ["shapes"] array, be the member
    absent or of another type. *)
Theorem parse_glyph_path_missing_input (jdata : ObjectValue) (path : SkPath) :
  as_array (member jdata "shapes") = None ->
  parse_glyph_path None path = (false, path)
  /\ parse_glyph_path (Some jdata) path = (true, path).
Proof.
  intros Hshapes. split; [reflexivity|].
  unfold parse_glyph_path. by rewrite Hshapes.
Qed.

Lemma parse_glyph_items_not_static (jit : ArrayValue) (path : SkPath)
    (v : json) (jshape : ObjectValue) :
  v ∈ jit -> as_object v = Some jshape -> not_static jshape ->
  fst (parse_glyph_items jit path) = false.
Proof.
  intros Hin Hobj Hbad. revert path.
  induction jit as [|v' jit IH]; intros path; [by apply elem_of_nil in Hin|].
  apply elem_of_cons in Hin as [<-|Hin]; simpl.
  - rewrite Hobj. unfold not_static in Hbad.
    destruct (attachPath (member jshape "ks")) as [[node|] [|a anims]];
      simpl in *; try done.
    destruct Hbad; congruence.
  - destruct (as_object v') as [jshape'|]; [|done].
    destruct (attachPath (member jshape' "ks")) as [[node|] [|a anims]];
      simpl; try done.
    by apply IH.
Qed.

(** C6: when some item of some group has a path under ["ks"] that
    evaluates to no path or records an animator, the whole extraction
    fails, whatever the other items are. *)
Theorem parse_glyph_path_not_static_fails (jdata : ObjectValue)
    (jshapes : ArrayValue) (vgrp : json) (jgrp : ObjectValue)
    (jit : ArrayValue) (vshape : json) (jshape : ObjectValue) (path : SkPath) :
  as_array (member jdata "shapes") = Some jshapes ->
  vgrp ∈ jshapes -> as_object vgrp = Some jgrp ->
  as_array (member jgrp "it") = Some jit ->
  vshape ∈ jit -> as_object vshape = Some jshape ->
  not_static jshape ->
  fst (parse_glyph_path (Some jdata) path) = false.
Proof.
  intros Hshapes Hgrp Hobj Hit Hshape Hsobj Hbad.
  unfold parse_glyph_path. rewrite Hshapes. clear Hshapes.
  revert path. induction jshapes as [|v jshapes IH]; intros path;
    [by apply elem_of_nil in Hgrp|].
  apply elem_of_cons in Hgrp as [<-|Hgrp]; simpl.
  - rewrite Hobj, Hit.
    pose proof (parse_glyph_items_not_static jit path vshape jshape
                  Hshape Hsobj Hbad) as Hf.
    destruct (parse_glyph_items jit path) as [ok path']. simpl in Hf.
    by subst ok.
  - destruct (as_object v) as [jgrp'|]; [|done].
    destruct (as_array (member jgrp' "it")) as [jit'|]; [|done].
    destruct (parse_glyph_items jit' path) as [[] path']; [|done].
    by apply IH.
Qed.

(** ** The writer monad *)

Lemma value_bind {A B} (m : Logged A) (f : A -> Logged B) :
  value (m ≫= f) = value (f (value m)).
Proof.
  destruct m as [a l]. unfold mbind, Logged_bind, value. simpl.
  by destruct (f a).
Qed.

Lemma events_bind {A B} (m : Logged A) (f : A -> Logged B) :
  events (m ≫= f) = events m ++ events (f (value m)).
Proof.
  destruct m as [a l]. unfold mbind, Logged_bind, events, value. simpl.
  by destruct (f a).
Qed.

Lemma for_each_app_value {St} (body : St -> json -> Logged St)
    (vs ws : ArrayValue) (st : St) :
  value (for_each body (vs ++ ws) st)
  = value (for_each body ws (value (for_each body vs st))).
Proof.
  revert st. induction vs as [|v vs IH]; intros st; simpl; [done|].
  by rewrite !value_bind, IH.
Qed.

(** ** The first pass of [parseFonts] *)

Lemma missing_or_empty_spec (jfont : ObjectValue) (key : string) :
  missing_or_empty jfont key ->
  match as_string (member jfont key) with
  | Some s => Nat.eqb (String.length s) 0 = true
  | None => True
  end.
Proof. intros [->| ->]; done. Qed.

Lemma collect_font_invalid (fFonts : FontMap) (jfont : ObjectValue) :
  missing_or_empty jfont "fName" \/ missing_or_empty jfont "fFamily"
  \/ missing_or_empty jfont "fStyle" ->
  collect_font fFonts (JObject jfont) = (fFonts, [Log kError (InvalidFont jfont)]).
Proof.
  intros H. unfold collect_font. simpl.
  destruct H as [H|[H|H]]; apply missing_or_empty_spec in H;
    destruct (as_string (member jfont "fName")) as [jname|];
    destruct (as_string (member jfont "fFamily")) as [jfamily|];
    destruct (as_string (member jfont "fStyle")) as [jstyle|];
    try reflexivity; rewrite H, ?orb_true_r; reflexivity.
Qed.

(** An entry of the list that is not an object is passed over, without
    a message (lines 204-206). *)
Lemma collect_font_not_object (fFonts : FontMap) (v : json) :
  as_object v = None -> collect_font fFonts v = (fFonts, []).
Proof. unfold collect_font. by intros ->. Qed.

Lemma collect_font_undeclared (fFonts : FontMap) (v : json) :
  declared_name v = None -> value (collect_font fFonts v) = fFonts.
Proof.
  unfold declared_name, collect_font.
  destruct (as_object v) as [jfont|]; [|done].
  destruct (as_string (member jfont "fName")) as [jname|]; [|done].
  destruct (as_string (member jfont "fFamily")) as [jfamily|]; [|done].
  destruct (as_string (member jfont "fStyle")) as [jstyle|]; [|done].
  by destruct (_ || _).
Qed.

Lemma collect_font_declared (fFonts : FontMap) (v : json) (jname : string) :
  declared_name v = Some jname ->
  exists finfo, value (collect_font fFonts v) = FontMap_set fFonts jname finfo.
Proof.
  unfold declared_name, collect_font.
  destruct (as_object v) as [jfont|]; [|done].
  destruct (as_string (member jfont "fName")) as [jname'|]; [|done].
  destruct (as_string (member jfont "fFamily")) as [jfamily|]; [|done].
  destruct (as_string (member jfont "fStyle")) as [jstyle|]; [|done].
  destruct (_ || _); [done|]. intros [= ->]. by eexists.
Qed.

Lemma FontMap_set_length (fonts : FontMap) (name : string) (finfo : FontInfo) :
  length (FontMap_set fonts name finfo) <= S (length fonts).
Proof.
  induction fonts as [|[k v] fonts IH]; simpl; [lia|].
  destruct (String.eqb k name); simpl; lia.
Qed.

Lemma collect_length (jlist : ArrayValue) (fFonts : FontMap) :
  length (value (for_each collect_font jlist fFonts))
  <= length fFonts
     + length (filter (fun v => is_Some (declared_name v)) jlist).
Proof.
  revert fFonts. induction jlist as [|v jlist IH]; intros fFonts; simpl.
  - unfold value. simpl. lia.
  - rewrite value_bind. etrans; [apply IH|].
    destruct (declared_name v) as [jname|] eqn:Hv.
    + destruct (collect_font_declared fFonts v jname Hv) as [finfo ->].
      rewrite filter_cons_True by (rewrite Hv; eauto). simpl.
      pose proof (FontMap_set_length fFonts jname finfo). lia.
    + rewrite collect_font_undeclared by done.
      rewrite filter_cons_False; [lia|].
      rewrite Hv. by intros [? ?].
Qed.

Lemma for_each_events_at {St} (body : St -> json -> Logged St)
    (vs ws : ArrayValue) (v : json) (st : St) (ev : Event) :
  ev ∈ events (body (value (for_each body vs st)) v) ->
  ev ∈ events (for_each body (vs ++ v :: ws) st).
Proof.
  revert st. induction vs as [|v' vs IH]; intros st Hev.
  - cbn [app for_each] in *. rewrite events_bind, elem_of_app. by left.
  - cbn [app for_each] in *. rewrite events_bind, elem_of_app. right.
    apply IH. by rewrite value_bind in Hev.
Qed.

(** C7: an object entry of the font list whose [fName], [fFamily] or
    [fStyle] is missing or empty, wherever it stands in the list: the
    pass over the list logs the error "Invalid font." for it, and the
    entry adds nothing to the registry: the pass gives the registry it
    gives without that entry, whose size is at most the number of the
    valid declarations. (An entry that is not an object has no fields;
    it is passed over without a message: [collect_font_not_object].) *)
Theorem parseFonts_invalid_declaration_dropped (pre post : ArrayValue)
    (jfont : ObjectValue) (fFonts : FontMap) :
  missing_or_empty jfont "fName" \/ missing_or_empty jfont "fFamily"
  \/ missing_or_empty jfont "fStyle" ->
  Log kError (InvalidFont jfont)
    ∈ events (for_each collect_font (pre ++ JObject jfont :: post) fFonts)
  /\ collect_font fFonts (JObject jfont) = (fFonts, [Log kError (InvalidFont jfont)])
  /\ value (for_each collect_font (pre ++ JObject jfont :: post) fFonts)
     = value (for_each collect_font (pre ++ post) fFonts)
  /\ length (value (for_each collect_font (pre ++ JObject jfont :: post) []))
     <= length (filter (fun v => is_Some (declared_name v)) (pre ++ post)).
Proof.
  intros H.
  split.
  { apply for_each_events_at. rewrite collect_font_invalid by done. by left. }
  assert (Hstep : forall fonts,
    value (for_each collect_font (pre ++ JObject jfont :: post) fonts)
    = value (for_each collect_font (pre ++ post) fonts)).
  { intros fonts. rewrite !for_each_app_value. simpl.
    by rewrite value_bind, collect_font_invalid. }
  split; [by apply collect_font_invalid|]. split; [apply Hstep|].
  rewrite Hstep. apply (collect_length (pre ++ post) []).
Qed.

(** ** The registry *)

Lemma FontMap_find_set (fonts : FontMap) (name : string) (finfo : FontInfo) :
  FontMap_find (FontMap_set fonts name finfo) name = Some finfo.
Proof.
  induction fonts as [|[k v] fonts IH]; simpl.
  - by rewrite String.eqb_refl.
  - destruct (String.eqb k name) eqn:E; simpl.
    + by rewrite String.eqb_refl.
    + by rewrite E.
Qed.

Lemma FontMap_find_set_ne (fonts : FontMap) (name name' : string) (finfo : FontInfo) :
  name <> name' ->
  FontMap_find (FontMap_set fonts name finfo) name' = FontMap_find fonts name'.
Proof.
  intros Hne. induction fonts as [|[k v] fonts IH]; simpl.
  - by apply String.eqb_neq in Hne as ->.
  - destruct (String.eqb k name) eqn:E; simpl.
    + apply String.eqb_eq in E as ->.
      by apply String.eqb_neq in Hne as ->.
    + by rewrite IH.
Qed.

Lemma FontMap_set_keys (fonts : FontMap) (name : string) (finfo : FontInfo) (k : string) :
  k ∈ (FontMap_set fonts name finfo).*1 -> k = name \/ k ∈ fonts.*1.
Proof.
  induction fonts as [|[k' v] fonts IH]; simpl.
  - intros ?%list_elem_of_singleton. by left.
  - destruct (String.eqb k' name) eqn:E; simpl; rewrite !elem_of_cons.
    + intros [->|?]; auto.
    + intros [->|?]; auto. destruct IH as [->|?]; auto.
Qed.

Lemma FontMap_set_NoDup (fonts : FontMap) (name : string) (finfo : FontInfo) :
  NoDup fonts.*1 -> NoDup (FontMap_set fonts name finfo).*1.
Proof.
  induction fonts as [|[k v] fonts IH]; simpl; intros Hnd.
  - apply NoDup_singleton.
  - apply NoDup_cons in Hnd as [Hk Hnd].
    destruct (String.eqb k name) eqn:E; simpl.
    + apply String.eqb_eq in E as ->. by apply NoDup_cons.
    + apply NoDup_cons. split; [|by apply IH].
      intros [->|?]%FontMap_set_keys; [|done].
      by rewrite String.eqb_refl in E.
Qed.

Lemma entries_named_absent (fonts : FontMap) (name : string) :
  name ∉ fonts.*1 -> entries_named fonts name = 0.
Proof.
  unfold entries_named. induction fonts as [|[k v] fonts IH]; [done|].
  rewrite fmap_cons, not_elem_of_cons. simpl fst. intros [Hne Hnin].
  rewrite filter_cons_False; [by apply IH|].
  simpl. rewrite String.eqb_eq. congruence.
Qed.

Lemma entries_named_found (fonts : FontMap) (name : string) (finfo : FontInfo) :
  NoDup fonts.*1 -> FontMap_find fonts name = Some finfo ->
  entries_named fonts name = 1.
Proof.
  unfold entries_named. induction fonts as [|[k v] fonts IH]; [done|].
  rewrite fmap_cons. simpl fst. intros [Hk Hnd]%NoDup_cons.
  simpl FontMap_find. destruct (String.eqb k name) eqn:E.
  - intros _. rewrite filter_cons_True by done.
    apply String.eqb_eq in E as ->.
    pose proof (entries_named_absent fonts name Hk) as H0.
    unfold entries_named in H0. simpl length. by rewrite H0.
  - intros Hf. rewrite filter_cons_False; [by apply IH|].
    simpl. by rewrite E.
Qed.

Lemma collect_font_valid (fFonts : FontMap) (jfont : ObjectValue)
    (jname jfamily jstyle : string) :
  as_string (member jfont "fName") = Some jname ->
  as_string (member jfont "fFamily") = Some jfamily ->
  as_string (member jfont "fStyle") = Some jstyle ->
  jname <> EmptyString -> jfamily <> EmptyString -> jstyle <> EmptyString ->
  collect_font fFonts (JObject jfont)
  = (FontMap_set fFonts jname (declared_info jfont jfamily jstyle), []).
Proof.
  intros Hn Hf Hs Hne1 Hne2 Hne3. unfold collect_font, declared_info. simpl.
  rewrite Hn, Hf, Hs.
  destruct jname; [done|]. destruct jfamily; [done|]. by destruct jstyle.
Qed.

(** What the rest of the pass keeps: names stay unique, and the entry of
    [name] stays as long as no later valid declaration has that name. *)
Lemma collect_keeps_entry (jlist : ArrayValue) (fFonts : FontMap)
    (name : string) (finfo : FontInfo) :
  NoDup fFonts.*1 -> FontMap_find fFonts name = Some finfo ->
  (forall v, v ∈ jlist -> declared_name v <> Some name) ->
  NoDup (value (for_each collect_font jlist fFonts)).*1
  /\ FontMap_find (value (for_each collect_font jlist fFonts)) name = Some finfo.
Proof.
  revert fFonts. induction jlist as [|v jlist IH]; intros fFonts Hnd Hf Hlater;
    simpl; [done|].
  rewrite value_bind.
  assert (Hv : declared_name v <> Some name) by (apply Hlater; left).
  apply IH; [ | |intros ? ?; apply Hlater; by right].
  - destruct (declared_name v) as [n|] eqn:E.
    + destruct (collect_font_declared fFonts v n E) as [fi ->].
      by apply FontMap_set_NoDup.
    + by rewrite collect_font_undeclared.
  - destruct (declared_name v) as [n|] eqn:E.
    + destruct (collect_font_declared fFonts v n E) as [fi ->].
      rewrite FontMap_find_set_ne; [done|congruence].
    + by rewrite collect_font_undeclared.
Qed.

Lemma collect_NoDup (jlist : ArrayValue) (fFonts : FontMap) :
  NoDup fFonts.*1 -> NoDup (value (for_each collect_font jlist fFonts)).*1.
Proof.
  revert fFonts. induction jlist as [|v jlist IH]; intros fFonts Hnd; simpl; [done|].
  rewrite value_bind. apply IH.
  destruct (declared_name v) as [n|] eqn:E.
  - destruct (collect_font_declared fFonts v n E) as [fi ->].
    by apply FontMap_set_NoDup.
  - by rewrite collect_font_undeclared.
Qed.

(** C10: after the first pass the registry has exactly one entry under
    the name of a valid declaration, and it holds the family, style, path
    and ascent of the last valid declaration of that name (with no
    typeface and an empty builder), whatever was declared under that name
    before. *)
Theorem parseFonts_last_declaration_wins (pre post : ArrayValue)
    (jfont : ObjectValue) (jname jfamily jstyle : string) (fFonts : FontMap) :
  NoDup fFonts.*1 ->
  as_string (member jfont "fName") = Some jname ->
  as_string (member jfont "fFamily") = Some jfamily ->
  as_string (member jfont "fStyle") = Some jstyle ->
  jname <> EmptyString -> jfamily <> EmptyString -> jstyle <> EmptyString ->
  (forall v, v ∈ post -> declared_name v <> Some jname) ->
  let fonts := value (for_each collect_font (pre ++ JObject jfont :: post) fFonts) in
  entries_named fonts jname = 1
  /\ findFont fonts jname = Some (declared_info jfont jfamily jstyle).
Proof.
  intros Hnd Hn Hf Hs Hne1 Hne2 Hne3 Hpost fonts. subst fonts.
  rewrite for_each_app_value. simpl. rewrite value_bind.
  rewrite (collect_font_valid _ jfont jname jfamily jstyle) by done.
  unfold value at 2. simpl.
  set (fonts1 := value (for_each collect_font pre fFonts)).
  destruct (collect_keeps_entry post
              (FontMap_set fonts1 jname (declared_info jfont jfamily jstyle))
              jname (declared_info jfont jfamily jstyle)) as [Hnd' Hfind].
  - apply FontMap_set_NoDup. by apply collect_NoDup.
  - apply FontMap_find_set.
  - done.
  - split; [|done]. by eapply entries_named_found.
Qed.

(** ** [foreach] *)

Lemma foreach_from_cons_value {S} (fn : nat -> string -> FontInfo -> S -> Logged (FontInfo * S))
    (slot : nat) (name : string) (finfo : FontInfo) (fonts : FontMap) (s : S) :
  value (foreach_from fn slot ((name, finfo) :: fonts) s)
  = ((name, fst (value (fn slot name finfo s)))
       :: fst (value (foreach_from fn (Datatypes.S slot) fonts
                                   (snd (value (fn slot name finfo s))))),
     snd (value (foreach_from fn (Datatypes.S slot) fonts
                              (snd (value (fn slot name finfo s)))))).
Proof.
  cbn [foreach_from]. rewrite value_bind.
  destruct (value (fn slot name finfo s)) as [finfo' s']. cbn [fst snd].
  rewrite value_bind.
  by destruct (value (foreach_from fn (Datatypes.S slot) fonts s')).
Qed.

Lemma foreach_from_cons_events {S} (fn : nat -> string -> FontInfo -> S -> Logged (FontInfo * S))
    (slot : nat) (name : string) (finfo : FontInfo) (fonts : FontMap) (s : S) :
  events (foreach_from fn slot ((name, finfo) :: fonts) s)
  = events (fn slot name finfo s)
    ++ events (foreach_from fn (Datatypes.S slot) fonts
                            (snd (value (fn slot name finfo s)))).
Proof.
  cbn [foreach_from]. rewrite events_bind. f_equal.
  destruct (value (fn slot name finfo s)) as [finfo' s']. cbn [fst snd].
  rewrite events_bind.
  destruct (value (foreach_from fn (Datatypes.S slot) fonts s')).
  unfold events at 3. simpl. by rewrite app_nil_r.
Qed.

(** ** The lookup by family and style *)

Lemma scan_from_spec (family style : string) (fonts : FontMap) (slot : nat)
    (current_font : option nat) :
  let r := snd (value (foreach_from (find_matching family style) slot fonts
                                    current_font)) in
  (r = current_font
   /\ forall j e, fonts !! j = Some e -> matches (snd e) family style = false)
  \/ (exists j e, r = Some (slot + j) /\ fonts !! j = Some e
        /\ matches (snd e) family style = true
        /\ forall j' e', j < j' -> fonts !! j' = Some e' ->
             matches (snd e') family style = false).
Proof.
  revert slot current_font.
  induction fonts as [|[name finfo] fonts IH]; intros slot current_font; cbv zeta.
  - left. split; [done|]. intros j e. by rewrite lookup_nil.
  - rewrite foreach_from_cons_value. cbn [snd find_matching value mret Logged_ret fst].
    destruct (IH (S slot)
                (if matches finfo family style then Some slot else current_font))
      as [[Hr Hnone]|(j & e & Hr & Hj & Hm & Hlater)]; rewrite Hr.
    + destruct (matches finfo family style) eqn:Hm.
      * right. exists 0, (name, finfo). rewrite Nat.add_0_r.
        repeat split; try done.
        intros [|j'] e' Hlt He'; [lia|]. by eapply Hnone.
      * left. split; [done|]. intros [|j] e He.
        -- by injection He as <-.
        -- by eapply Hnone.
    + right. exists (S j), e. repeat split; try done.
      * f_equal. lia.
      * intros [|j'] e' Hlt He'; [lia|]. eapply (Hlater j'); [lia|done].
Qed.

Lemma matches_same_query (finfo : FontInfo) (family style family' style' : string) :
  matches finfo family style = true -> matches finfo family' style' = true ->
  family = family' /\ style = style'.
Proof.
  unfold matches, strcmp_eq.
  intros [H1 H2]%andb_true_iff [H3 H4]%andb_true_iff.
  apply String.eqb_eq in H1, H2, H3, H4. split; congruence.
Qed.

(** C4, as amended: the lookup returns the last entry, in the order of
    the iteration, whose family and style both match, and null when no
    entry matches; the entry kept from the previous glyph record does not
    change that. *)
Theorem locate_font_returns_last_match (fonts : FontMap)
    (current_font : option nat) (family style : string) :
  cache_valid fonts current_font ->
  match locate_font fonts current_font family style with
  | Some slot =>
      exists e, fonts !! slot = Some e
        /\ matches (snd e) family style = true
        /\ forall slot' e', slot < slot' -> fonts !! slot' = Some e' ->
             matches (snd e') family style = false
  | None =>
      forall slot e, fonts !! slot = Some e -> matches (snd e) family style = false
  end.
Proof.
  intros Hvalid.
  assert (Hscan : forall f s,
    match scan_fonts fonts f s with
    | Some slot =>
        exists e, fonts !! slot = Some e /\ matches (snd e) f s = true
          /\ forall slot' e', slot < slot' -> fonts !! slot' = Some e' ->
               matches (snd e') f s = false
    | None => forall slot e, fonts !! slot = Some e -> matches (snd e) f s = false
    end).
  { intros f s. unfold scan_fonts, foreach.
    destruct (scan_from_spec f s fonts 0 None)
      as [[-> Hnone]|(j & e & -> & Hj & Hm & Hlater)]; [done|].
    simpl. by exists e. }
  unfold locate_font.
  destruct (current_matches fonts current_font family style) eqn:Hcur; simpl;
    [|apply Hscan].
  unfold current_matches in Hcur.
  destruct current_font as [slot|]; [|done].
  destruct (fonts !! slot) as [[name finfo]|] eqn:Hslot; [|done].
  destruct Hvalid as [|(f & s & Hfs)]; [done|].
  specialize (Hscan f s). rewrite Hfs in Hscan.
  destruct Hscan as (e & He & Hm & Hlater).
  rewrite Hslot in He. injection He as <-. simpl in Hm.
  destruct (matches_same_query _ _ _ _ _ Hcur Hm) as [-> ->].
  by exists (name, finfo).
Qed.

Lemma foreach_from_lookup {S} (fn : nat -> string -> FontInfo -> S -> Logged (FontInfo * S))
    (slot : nat) (fonts : FontMap) (s : S) (i : nat) (name : string) (finfo : FontInfo) :
  fonts !! i = Some (name, finfo) ->
  exists s_i, fst (value (foreach_from fn slot fonts s)) !! i
              = Some (name, fst (value (fn (slot + i) name finfo s_i))).
Proof.
  revert slot s i.
  induction fonts as [|[n fi] fonts IH]; intros slot s [|i] H; try done;
    rewrite foreach_from_cons_value; simpl in H.
  - injection H as -> ->. exists s. by rewrite Nat.add_0_r.
  - destruct (IH (Datatypes.S slot) (snd (value (fn slot n fi s))) i H) as [s_i Hs].
    exists s_i. simpl. rewrite Hs. by replace (slot + Datatypes.S i) with (Datatypes.S slot + i) by lia.
Qed.

Lemma scan_fonts_sans_builders (fonts fonts' : FontMap) (family style : string) :
  sans_builders fonts = sans_builders fonts' ->
  scan_fonts fonts family style = scan_fonts fonts' family style.
Proof.
  unfold scan_fonts, foreach. generalize 0 (@None nat).
  revert fonts'. induction fonts as [|[n fi] fonts IH];
    intros [|[n' fi'] fonts'] slot cur Heq; try done.
  rewrite !foreach_from_cons_value. cbn [snd find_matching value mret Logged_ret fst].
  injection Heq as _ Hfam Hsty _ _ _ Hrest.
  unfold matches. rewrite Hfam, Hsty. by apply IH.
Qed.

Lemma set_font_glyph_sans_builders (fonts : FontMap) (slot : nat)
    (glyph_id : SkGlyphID) (adv : SkScalar) (path : SkPath) :
  sans_builders (set_font_glyph fonts slot glyph_id adv path) = sans_builders fonts.
Proof.
  unfold set_font_glyph. destruct (fonts !! slot) as [[n fi]|] eqn:E; [|done].
  unfold sans_builders. rewrite list_fmap_insert. apply list_insert_id.
  by rewrite list_lookup_fmap, E.
Qed.

(** The outcomes of one turn of the loop over [jchars]. *)
Lemma embed_glyph_cases (fonts : FontMap) (current_font : option nat) (v : json) :
  value (embed_glyph (fonts, current_font) v) = (fonts, current_font)
  \/ exists family style,
       value (embed_glyph (fonts, current_font) v)
       = (fonts, locate_font fonts current_font family style)
       \/ exists slot glyph_id adv path,
            locate_font fonts current_font family style = Some slot
            /\ value (embed_glyph (fonts, current_font) v)
               = (set_font_glyph fonts slot glyph_id adv path, Some slot).
Proof.
  unfold embed_glyph.
  destruct (as_object v) as [jchar|]; [|by left].
  destruct (as_string (member jchar "ch")) as [jch|]; [|by left].
  destruct (as_string (member jchar "fFamily")) as [jfamily|]; [|by left].
  destruct (as_string (member jchar "style")) as [jstyle|]; [|by left].
  destruct (negb (CountUTF8 jch =? 1)%Z); [by left|].
  destruct (negb (SkTFitsIn_SkGlyphID (NextUTF8 jch))); [by left|].
  right. exists (c_str jfamily), (c_str jstyle).
  destruct (locate_font fonts current_font (c_str jfamily) (c_str jstyle))
    as [slot|] eqn:Hloc; [|by left].
  destruct (parse_glyph_path (as_object (member jchar "data")) []) as [[] path];
    simpl; [|by left].
  right. by eexists _, _, _, _.
Qed.

Lemma embed_glyph_sans_builders (st : FontMap * option nat) (v : json) :
  sans_builders (fst (value (embed_glyph st v))) = sans_builders (fst st).
Proof.
  destruct st as [fonts cur].
  destruct (embed_glyph_cases fonts cur v)
    as [->|(f & s & [->|(slot & g & a & p & _ & ->)])]; try done.
  apply set_font_glyph_sans_builders.
Qed.

Lemma embed_glyphs_sans_builders (jchars : ArrayValue) (st : FontMap * option nat) :
  sans_builders (fst (value (for_each embed_glyph jchars st))) = sans_builders (fst st).
Proof.
  revert st. induction jchars as [|v jchars IH]; intros st; [done|].
  cbn [for_each]. rewrite value_bind, IH. apply embed_glyph_sans_builders.
Qed.

(** The entry kept from one glyph record to the next is always the
    result of a scan: the hypothesis of [locate_font_returns_last_match]
    holds all along the loop. *)
Lemma embed_glyph_cache_valid (st : FontMap * option nat) (v : json) :
  cache_valid (fst st) (snd st) ->
  cache_valid (fst (value (embed_glyph st v))) (snd (value (embed_glyph st v))).
Proof.
  destruct st as [fonts cur]. cbn [fst snd]. intros Hvalid.
  assert (Hloc : forall f s, cache_valid fonts (locate_font fonts cur f s)).
  { intros f s. unfold locate_font.
    destruct (negb _); [right; by exists f, s|done]. }
  destruct (embed_glyph_cases fonts cur v)
    as [->|(f & s & [->|(slot & g & a & p & Hslot & ->)])]; cbn [fst snd]; try done.
  destruct (Hloc f s) as [Hnone|(f' & s' & Hscan)]; [congruence|].
  right. exists f', s'. rewrite <- Hslot, <- Hscan.
  apply scan_fonts_sans_builders, set_font_glyph_sans_builders.
Qed.

Lemma embed_glyphs_cache_valid (jchars : ArrayValue) (st : FontMap * option nat) :
  cache_valid (fst st) (snd st) ->
  cache_valid (fst (value (for_each embed_glyph jchars st)))
              (snd (value (for_each embed_glyph jchars st))).
Proof.
  revert st. induction jchars as [|v jchars IH]; intros st Hvalid; [done|].
  cbn [for_each]. rewrite value_bind. by apply IH, embed_glyph_cache_valid.
Qed.

(** ** Resolved typefaces are kept *)

Lemma resolve_native_resolved (slot : nat) (name : string) (finfo : FontInfo)
    (tf : SkTypeface) (has_unresolved : bool) :
  fTypeface finfo = Some tf ->
  resolve_native slot name finfo has_unresolved = (finfo, has_unresolved, []).
Proof. unfold resolve_native. by intros ->. Qed.

Lemma commit_custom_resolved (slot : nat) (name : string) (finfo : FontInfo)
    (tf : SkTypeface) (has_unresolved : bool) :
  fTypeface finfo = Some tf ->
  commit_custom slot name finfo has_unresolved = (finfo, has_unresolved, []).
Proof. unfold commit_custom. by intros ->. Qed.

Lemma resolveNativeTypefaces_value (fonts : FontMap) :
  value (resolveNativeTypefaces fonts)
  = (negb (snd (value (foreach resolve_native fonts false))),
     fst (value (foreach resolve_native fonts false))).
Proof.
  unfold resolveNativeTypefaces. rewrite !value_bind.
  by destruct (value (foreach resolve_native fonts false)).
Qed.

Lemma resolveEmbeddedTypefaces_value (jchars : ArrayValue) (fonts : FontMap) :
  value (resolveEmbeddedTypefaces jchars fonts)
  = let fonts1 := fst (value (for_each embed_glyph jchars (fonts, None))) in
    (negb (snd (value (foreach commit_custom fonts1 false))),
     fst (value (foreach commit_custom fonts1 false))).
Proof.
  unfold resolveEmbeddedTypefaces. rewrite !value_bind.
  destruct (value (for_each embed_glyph jchars (fonts, None))) as [fonts1 cur].
  rewrite value_bind. cbn [fst].
  by destruct (value (foreach commit_custom fonts1 false)).
Qed.

Lemma sans_builders_lookup (fonts fonts' : FontMap) (slot : nat) (name : string)
    (finfo : FontInfo) :
  sans_builders fonts = sans_builders fonts' ->
  fonts !! slot = Some (name, finfo) ->
  exists finfo', fonts' !! slot = Some (name, finfo')
                 /\ fTypeface finfo' = fTypeface finfo.
Proof.
  intros Heq Hl.
  assert (H : sans_builders fonts !! slot = Some (name, with_builder finfo [])).
  { unfold sans_builders. by rewrite list_lookup_fmap, Hl. }
  rewrite Heq in H. unfold sans_builders in H. rewrite list_lookup_fmap in H.
  destruct (fonts' !! slot) as [[n' fi']|]; [|done].
  injection H as -> _ _ _ _ Htf. by exists fi'.
Qed.

(** C5: an entry whose typeface is set keeps it through both resolution
    passes: the native pass leaves the entry as it is, and the embedded
    pass, its final commit included, leaves the entry in its place under
    its name with the same typeface. *)
Theorem resolved_typeface_never_overwritten (fonts : FontMap) (jchars : ArrayValue)
    (slot : nat) (name : string) (finfo : FontInfo) (tf : SkTypeface) :
  fonts !! slot = Some (name, finfo) ->
  fTypeface finfo = Some tf ->
  snd (value (resolveNativeTypefaces fonts)) !! slot = Some (name, finfo)
  /\ exists finfo',
       snd (value (resolveEmbeddedTypefaces jchars fonts)) !! slot
       = Some (name, finfo')
       /\ fTypeface finfo' = Some tf.
Proof.
  intros Hslot Htf. split.
  - rewrite resolveNativeTypefaces_value. cbn [snd]. unfold foreach.
    destruct (foreach_from_lookup resolve_native 0 fonts false slot name finfo Hslot)
      as [s_i ->].
    by rewrite (resolve_native_resolved _ _ _ tf).
  - rewrite resolveEmbeddedTypefaces_value. cbn [snd]. unfold foreach.
    destruct (sans_builders_lookup fonts
                (fst (value (for_each embed_glyph jchars (fonts, None))))
                slot name finfo) as (finfo1 & Hslot1 & Htf1); [|done|].
    { symmetry. apply (embed_glyphs_sans_builders jchars (fonts, None)). }
    rewrite Htf in Htf1.
    destruct (foreach_from_lookup commit_custom 0 _ false slot name finfo1 Hslot1)
      as [s_i ->].
    rewrite (commit_custom_resolved _ _ _ tf) by done. by exists finfo1.
Qed.

(** ** The order of the passes *)

Ltac no_native :=
  unfold events; cbn;
  repeat (rewrite not_elem_of_cons; split; [discriminate|]);
  apply not_elem_of_nil.

Lemma for_each_no_native {St} (body : St -> json -> Logged St)
    (vs : ArrayValue) (st : St) :
  (forall st v, Enter NativePass ∉ events (body st v)) ->
  Enter NativePass ∉ events (for_each body vs st).
Proof.
  intros Hbody. revert st. induction vs as [|v vs IH]; intros st; cbn [for_each].
  - no_native.
  - rewrite events_bind, not_elem_of_app. split; [apply Hbody|apply IH].
Qed.

Lemma foreach_from_no_native {S}
    (fn : nat -> string -> FontInfo -> S -> Logged (FontInfo * S))
    (slot : nat) (fonts : FontMap) (s : S) :
  (forall slot name finfo s, Enter NativePass ∉ events (fn slot name finfo s)) ->
  Enter NativePass ∉ events (foreach_from fn slot fonts s).
Proof.
  intros Hfn. revert slot s.
  induction fonts as [|[name finfo] fonts IH]; intros slot s.
  - no_native.
  - rewrite foreach_from_cons_events, not_elem_of_app. split; [apply Hfn|apply IH].
Qed.

Lemma collect_font_no_native (fFonts : FontMap) (v : json) :
  Enter NativePass ∉ events (collect_font fFonts v).
Proof.
  unfold collect_font.
  destruct (as_object v) as [jfont|]; [|no_native].
  destruct (as_string (member jfont "fName")) as [jname|]; [|no_native].
  destruct (as_string (member jfont "fFamily")) as [jfamily|]; [|no_native].
  destruct (as_string (member jfont "fStyle")) as [jstyle|]; [|no_native].
  destruct (_ || _); no_native.
Qed.

Lemma embed_glyph_no_native (st : FontMap * option nat) (v : json) :
  Enter NativePass ∉ events (embed_glyph st v).
Proof.
  destruct st as [fonts cur]. unfold embed_glyph.
  destruct (as_object v) as [jchar|]; [|no_native].
  destruct (as_string (member jchar "ch")) as [jch|]; [|no_native].
  destruct (as_string (member jchar "fFamily")) as [jfamily|]; [|no_native].
  destruct (as_string (member jchar "style")) as [jstyle|]; [|no_native].
  destruct (negb (CountUTF8 jch =? 1)%Z); [no_native|].
  destruct (negb (SkTFitsIn_SkGlyphID (NextUTF8 jch))); [no_native|].
  destruct (locate_font fonts cur (c_str jfamily) (c_str jstyle)); [|no_native].
  destruct (parse_glyph_path (as_object (member jchar "data")) []) as [[] path];
    no_native.
Qed.

Lemma commit_custom_no_native (slot : nat) (name : string) (finfo : FontInfo)
    (has_unresolved : bool) :
  Enter NativePass ∉ events (commit_custom slot name finfo has_unresolved).
Proof.
  unfold commit_custom. destruct (fTypeface finfo); [no_native|].
  destruct (detach (fCustomBuilder finfo)). no_native.
Qed.

Lemma resolveEmbeddedTypefaces_no_native (jchars : ArrayValue) (fonts : FontMap) :
  Enter NativePass ∉ events (resolveEmbeddedTypefaces jchars fonts).
Proof.
  unfold resolveEmbeddedTypefaces. rewrite events_bind, not_elem_of_app.
  split; [no_native|].
  rewrite events_bind, not_elem_of_app.
  split; [apply for_each_no_native, embed_glyph_no_native|].
  destruct (value (for_each embed_glyph jchars (fonts, None))) as [fonts1 cur].
  rewrite events_bind, not_elem_of_app.
  split; [apply foreach_from_no_native, commit_custom_no_native|].
  destruct (value (foreach commit_custom fonts1 false)). no_native.
Qed.

(** C8: with glyph data present and the flag set, when the embedded pass
    over the collected registry reports that every font is resolved,
    [parseFonts] ends there: the native pass is not entered, and the
    registry is the one the embedded pass left. *)
Theorem parseFonts_embedded_success_skips_native (jfonts : option ObjectValue)
    (jlist jchars : ArrayValue) (fFonts : FontMap) :
  (jfonts ≫= (fun o => as_array (member o "list"))) = Some jlist ->
  fst (value (resolveEmbeddedTypefaces jchars
                (value (for_each collect_font jlist fFonts)))) = true ->
  (Enter NativePass ∉ events (parseFonts true jfonts (Some jchars) fFonts))
  /\ value (parseFonts true jfonts (Some jchars) fFonts)
     = snd (value (resolveEmbeddedTypefaces jchars
                     (value (for_each collect_font jlist fFonts)))).
Proof.
  intros Hlist Hdone. unfold parseFonts. rewrite Hlist.
  rewrite events_bind, !value_bind, events_bind, not_elem_of_app.
  pose proof (resolveEmbeddedTypefaces_no_native jchars
                (value (for_each collect_font jlist fFonts))) as Hquiet.
  destruct (value (resolveEmbeddedTypefaces jchars
                     (value (for_each collect_font jlist fFonts))))
    as [done fonts2].
  cbn [fst] in Hdone. subst done. cbn [snd].
  split; [|done].
  split; [apply for_each_no_native, collect_font_no_native|].
  rewrite not_elem_of_app. split; [done|no_native].
Qed.

(** ** What the embedded pass stores *)

(** For a glyph record that passes every check, the record stored in the
    builder of its font has the advance multiplied by [kPtScale] and the
    outline scaled by [kPtScale] on both axes. *)
Lemma embed_glyph_stores_scaled (fonts : FontMap) (current_font : option nat)
    (jchar : ObjectValue) (jch jfamily jstyle : string) (slot : nat) (path : SkPath) :
  as_string (member jchar "ch") = Some jch ->
  as_string (member jchar "fFamily") = Some jfamily ->
  as_string (member jchar "style") = Some jstyle ->
  CountUTF8 jch = 1%Z ->
  SkTFitsIn_SkGlyphID (NextUTF8 jch) = true ->
  locate_font fonts current_font (c_str jfamily) (c_str jstyle) = Some slot ->
  parse_glyph_path (as_object (member jchar "data")) [] = (true, path) ->
  value (embed_glyph (fonts, current_font) (JObject jchar))
  = (set_font_glyph fonts slot (NextUTF8 jch)
       (SkScalarMul (ParseDefault (member jchar "w") SK_Scalar0) kPtScale)
       (transform_scale kPtScale kPtScale path),
     Some slot).
Proof.
  intros Hch Hfam Hsty Hcount Hfits Hloc Hpath. unfold embed_glyph. simpl.
  by rewrite Hch, Hfam, Hsty, Hcount, Hfits, Hloc, Hpath.
Qed.

Lemma setGlyph_stored (b : SkCustomTypefaceBuilder) (index : SkGlyphID)
    (adv : SkScalar) (path : SkPath) :
  mkGlyphRec index adv path ∈ setGlyph b index adv path.
Proof.
  induction b as [|g b IH]; simpl; [by left|].
  destruct (fGlyph g =? index)%Z; [by left|by right].
Qed.

(** * Further properties *)

(** ** [FontStyle] on every input *)

Lemma skip_suffix (n : nat) (s : string) :
  exists pre, s = String.append pre (skip n s).
Proof.
  revert s. induction n as [|n IH]; intros s; [by exists EmptyString|].
  destruct s as [|c s]; [by exists EmptyString|].
  destruct (IH s) as [pre Hpre]. exists (String c pre).
  change (String c s = String c (String.append pre (skip n s))). by f_equal.
Qed.

Lemma skip_append (a b : string) : skip (String.length a) (String.append a b) = b.
Proof. induction a as [|c a IH]; [done|]. simpl. apply IH. Qed.

Lemma prefix_append (a b : string) : String.prefix a (String.append a b) = true.
Proof.
  induction a as [|c a IH]; simpl; [by destruct b|].
  by destruct (ascii_dec c c).
Qed.

Lemma prefix_empty (s : string) : String.prefix EmptyString s = true.
Proof. by destruct s. Qed.

Lemma prefix_append_cases (t name rest : string) :
  String.prefix t (String.append name rest) = true ->
  String.prefix t name = true \/ String.prefix name t = true.
Proof.
  revert name. induction t as [|c t IH]; intros name;
    [left; apply prefix_empty|].
  destruct name as [|d name]; [right; apply prefix_empty|]. simpl.
  destruct (ascii_dec c d) as [->|Hne]; [|done].
  destruct (ascii_dec d d); [|done]. apply IH.
Qed.

Lemma scan_weights_suffix (tbl : list (string * Weight)) (d : Weight) (style : string) :
  exists pre, style = String.append pre (snd (scan_weights tbl d style)).
Proof.
  induction tbl as [|[fName fWeight] tbl IH]; simpl; [by exists EmptyString|].
  destruct (strncmp_eq style fName); [apply skip_suffix|apply IH].
Qed.

Lemma scan_slants_suffix (tbl : list (string * Slant)) (d : Slant) (style : string) :
  exists pre, style = String.append pre (snd (scan_slants tbl d style)).
Proof.
  induction tbl as [|[fName fSlant] tbl IH]; simpl; [by exists EmptyString|].
  destruct (strcmp_eq style fName); [apply skip_suffix|apply IH].
Qed.

Lemma append_assoc (a b c : string) :
  String.append (String.append a b) c = String.append a (String.append b c).
Proof.
  induction a as [|x a IH]; [done|].
  change (String x (String.append (String.append a b) c)
          = String x (String.append a (String.append b c))).
  by f_equal.
Qed.

(** X1: whatever the style string, the width of the result is normal and
    the log is empty or is one warning, which carries a part of the style
    string that reaches to its end and is not empty. *)
Theorem FontStyle_normal_width_one_warning (style : string) :
  width (value (FontStyle style)) = kNormal_Width
  /\ (events (FontStyle style) = []
      \/ exists pre residual,
           residual <> EmptyString
           /\ style = String.append pre residual
           /\ events (FontStyle style) = [Log kWarning (UnknownFontStyle residual)]).
Proof.
  unfold FontStyle.
  destruct (scan_weights_suffix gWeightMap kNormal_Weight style) as [pre1 H1].
  destruct (scan_weights gWeightMap kNormal_Weight style) as [w s1].
  cbn [snd] in H1.
  destruct s1 as [|c s1]; cbn [at_end negb]; [by split; [|left]|].
  destruct (scan_slants_suffix gSlantMap kUpright_Slant (String c s1)) as [pre2 H2].
  destruct (scan_slants gSlantMap kUpright_Slant (String c s1)) as [sl s2].
  cbn [snd] in H2. destruct s2 as [|c2 s2]; cbn [at_end negb];
    [by split; [|left]|].
  split; [done|]. right. exists (String.append pre1 pre2), (String c2 s2).
  split; [done|]. split; [|done]. by rewrite append_assoc, <- H2.
Qed.

Lemma scan_weights_none (tbl : list (string * Weight)) (d : Weight) (style : string) :
  Forall (fun e => String.prefix (fst e) style = false) tbl ->
  scan_weights tbl d style = (d, style).
Proof.
  induction 1 as [|[fName fWeight] tbl Hhd Htl IH]; simpl; [done|].
  unfold strncmp_eq. simpl in Hhd. by rewrite Hhd.
Qed.

Lemma scan_slants_none (tbl : list (string * Slant)) (d : Slant) (style : string) :
  Forall (fun e => style <> fst e) tbl ->
  scan_slants tbl d style = (d, style).
Proof.
  induction 1 as [|[fName fSlant] tbl Hhd Htl IH]; simpl; [done|].
  unfold strcmp_eq. simpl in Hhd. by apply String.eqb_neq in Hhd as ->.
Qed.

(** X2: a style string that is not empty, that no weight token starts and
    that is not a slant token gives the default style (normal weight,
    upright) and a warning that carries the whole string. *)
Theorem FontStyle_unknown_style (style : string) :
  style <> EmptyString ->
  Forall (fun e => String.prefix (fst e) style = false) gWeightMap ->
  Forall (fun e => style <> fst e) gSlantMap ->
  FontStyle style
  = (mkSkFontStyle kNormal_Weight kNormal_Width kUpright_Slant,
     [Log kWarning (UnknownFontStyle style)]).
Proof.
  intros Hne Hw Hs. unfold FontStyle.
  rewrite (scan_weights_none _ _ _ Hw).
  destruct style as [|c style]; [done|]. cbn [at_end negb].
  by rewrite (scan_slants_none _ _ _ Hs).
Qed.

Lemma scan_weights_token (tbl : list (string * Weight)) (d : Weight)
    (name rest : string) (w : Weight) :
  find (related name) tbl = Some (name, w) ->
  scan_weights tbl d (String.append name rest) = (w, rest).
Proof.
  induction tbl as [|[t wt] tbl IH]; simpl; [done|].
  unfold related at 1. simpl. unfold strncmp_eq.
  destruct (String.prefix t (String.append name rest)) eqn:Hp.
  - apply prefix_append_cases in Hp as [-> | ->]; rewrite ?orb_true_r; simpl;
      intros [= -> ->]; by rewrite skip_append.
  - destruct (String.prefix t name || String.prefix name t) eqn:Hrel; [|done].
    intros [= -> ->]. by rewrite prefix_append in Hp.
Qed.

(** X3: for a weight token that is the first entry of [gWeightMap] it is
    related to by prefix (no earlier token starts it or is started by it),
    followed by any text: the weight is the token's; the slant is upright
    with no message when nothing follows, the slant of the token when
    exactly a slant token follows, and upright with a warning for the
    whole remainder otherwise. *)
Theorem FontStyle_token_then_rest (name rest : string) (w : Weight) :
  find (related name) gWeightMap = Some (name, w) ->
  weight (value (FontStyle (String.append name rest))) = w
  /\ (rest = EmptyString ->
      FontStyle (String.append name rest)
      = (mkSkFontStyle w kNormal_Width kUpright_Slant, []))
  /\ (forall sl, (rest, sl) ∈ gSlantMap ->
      FontStyle (String.append name rest) = (mkSkFontStyle w kNormal_Width sl, []))
  /\ (rest <> EmptyString -> Forall (fun e => rest <> fst e) gSlantMap ->
      FontStyle (String.append name rest)
      = (mkSkFontStyle w kNormal_Width kUpright_Slant,
         [Log kWarning (UnknownFontStyle rest)])).
Proof.
  intros Hfind. unfold FontStyle.
  rewrite (scan_weights_token _ kNormal_Weight _ rest _ Hfind).
  split; [|split; [|split]].
  - destruct rest as [|c rest]; [done|]. cbn [at_end negb].
    destruct (scan_slants gSlantMap kUpright_Slant (String c rest)) as [sl s2].
    by destruct s2.
  - by intros ->.
  - intros sl Hin. unfold gSlantMap in Hin.
    apply elem_of_cons in Hin as [[= -> ->]|Hin]; [done|].
    apply elem_of_cons in Hin as [[= -> ->]|Hin]; [done|].
    by apply elem_of_nil in Hin.
  - intros Hne Hs. destruct rest as [|c rest]; [done|]. cbn [at_end negb].
    by rewrite (scan_slants_none _ _ _ Hs).
Qed.

(** ** [parse_glyph_path]: when it succeeds and what it returns *)

Lemma parse_glyph_items_static (jit : ArrayValue) (path : SkPath) :
  Forall static_item jit ->
  parse_glyph_items jit path = (true, path ++ flat_map item_path jit).
Proof.
  intros Hall. revert path.
  induction Hall as [|v jit (jshape & p & Hobj & Hks) _ IH]; intros path.
  - simpl. by rewrite app_nil_r.
  - cbn [parse_glyph_items flat_map]. unfold item_path at 1.
    rewrite Hobj, Hks, IH. unfold addPath. cbn [fst default from_option id].
    by rewrite app_assoc.
Qed.

Lemma parse_glyph_items_true (jit : ArrayValue) (path : SkPath) :
  fst (parse_glyph_items jit path) = true -> Forall static_item jit.
Proof.
  revert path. induction jit as [|v jit IH]; intros path; [by constructor|].
  cbn [parse_glyph_items].
  destruct (as_object v) as [jshape|] eqn:Hobj; [|done].
  destruct (attachPath (member jshape "ks")) as [[p|] [|a anims]] eqn:Hks;
    try done.
  intros H. constructor; [by exists jshape, p|by eapply IH].
Qed.

Lemma parse_glyph_groups_static (jshapes : ArrayValue) (path : SkPath) :
  Forall static_group jshapes ->
  parse_glyph_groups jshapes path = (true, path ++ flat_map group_path jshapes).
Proof.
  intros Hall. revert path.
  induction Hall as [|v jshapes (jgrp & jit & Hobj & Hit & Hitems) _ IH];
    intros path.
  - simpl. by rewrite app_nil_r.
  - cbn [parse_glyph_groups flat_map]. unfold group_path at 1.
    rewrite Hobj, Hit, (parse_glyph_items_static _ _ Hitems), IH.
    cbn [default from_option id]. by rewrite app_assoc.
Qed.

Lemma parse_glyph_groups_true (jshapes : ArrayValue) (path : SkPath) :
  fst (parse_glyph_groups jshapes path) = true -> Forall static_group jshapes.
Proof.
  revert path. induction jshapes as [|v jshapes IH]; intros path; [by constructor|].
  cbn [parse_glyph_groups].
  destruct (as_object v) as [jgrp|] eqn:Hobj; [|done].
  destruct (as_array (member jgrp "it")) as [jit|] eqn:Hit; [|done].
  destruct (parse_glyph_items jit path) as [ok path'] eqn:Hitems.
  destruct ok; [|done]. intros H. constructor; [|by eapply IH].
  exists jgrp, jit. repeat split; try done.
  apply (parse_glyph_items_true jit path). by rewrite Hitems.
Qed.

(** X4: for a glyph object with a ["shapes"] array, the extraction
    succeeds exactly when every element of the array is an object with an
    ["it"] array, and every element of that is an object whose ["ks"]
    gives a path node without any animator. *)
Theorem parse_glyph_path_succeeds_iff (jdata : ObjectValue) (jshapes : ArrayValue)
    (path : SkPath) :
  as_array (member jdata "shapes") = Some jshapes ->
  fst (parse_glyph_path (Some jdata) path) = true <-> Forall static_group jshapes.
Proof.
  intros Hshapes. unfold parse_glyph_path. rewrite Hshapes. split.
  - apply parse_glyph_groups_true.
  - intros Hall. by rewrite (parse_glyph_groups_static _ _ Hall).
Qed.

(** X5: when the extraction succeeds, the path it leaves is the path it
    was given followed by the paths of all the items, group after group
    and item after item, in the order of the document. *)
Theorem parse_glyph_path_success_appends (jdata : ObjectValue) (path : SkPath) :
  fst (parse_glyph_path (Some jdata) path) = true ->
  snd (parse_glyph_path (Some jdata) path)
  = path ++ flat_map group_path (default [] (as_array (member jdata "shapes"))).
Proof.
  unfold parse_glyph_path.
  destruct (as_array (member jdata "shapes")) as [jshapes|].
  - intros Hall%parse_glyph_groups_true.
    by rewrite (parse_glyph_groups_static _ _ Hall).
  - intros _. simpl. by rewrite app_nil_r.
Qed.

(** ** The passes, entry by entry *)

Lemma foreach_from_entrywise {S}
    (fn : nat -> string -> FontInfo -> S -> Logged (FontInfo * S))
    (g : string -> FontInfo -> FontInfo) (slot : nat) (fonts : FontMap) (s : S) :
  (forall slot name finfo s, fst (value (fn slot name finfo s)) = g name finfo) ->
  fst (value (foreach_from fn slot fonts s))
  = (fun e => (fst e, g (fst e) (snd e))) <$> fonts.
Proof.
  intros Hfn. revert slot s.
  induction fonts as [|[name finfo] fonts IH]; intros slot s; [done|].
  rewrite foreach_from_cons_value, fmap_cons. cbn [fst snd]. by rewrite Hfn, IH.
Qed.

Lemma foreach_from_unresolved_flag
    (fn : nat -> string -> FontInfo -> bool -> Logged (FontInfo * bool))
    (slot : nat) (fonts : FontMap) (has_unresolved : bool) :
  (forall slot name finfo hu,
     snd (value (fn slot name finfo hu))
     = hu || negb (is_Some_b (fTypeface (fst (value (fn slot name finfo hu)))))) ->
  snd (value (foreach_from fn slot fonts has_unresolved))
  = has_unresolved
    || negb (all_resolved (fst (value (foreach_from fn slot fonts has_unresolved)))).
Proof.
  intros Hfn. revert slot has_unresolved.
  induction fonts as [|[name finfo] fonts IH]; intros slot hu.
  - simpl. by rewrite orb_false_r.
  - rewrite foreach_from_cons_value. cbn [fst snd]. rewrite IH, Hfn.
    unfold all_resolved. cbn [forallb snd].
    destruct hu, (is_Some_b _), (forallb _ _); done.
Qed.

Lemma resolve_native_flag (slot : nat) (name : string) (finfo : FontInfo) (hu : bool) :
  snd (value (resolve_native slot name finfo hu))
  = hu || negb (is_Some_b (fTypeface (fst (value (resolve_native slot name finfo hu))))).
Proof.
  unfold resolve_native.
  destruct (fTypeface finfo) eqn:Htf.
  { simpl. rewrite Htf. simpl. by rewrite orb_false_r. }
  destruct (makeFromLoadedFont _ _); [simpl; by rewrite orb_false_r|].
  rewrite !value_bind.
  destruct (matchFamilyStyle _ _); [simpl; by rewrite orb_false_r|].
  by rewrite !value_bind.
Qed.

Lemma commit_custom_flag (slot : nat) (name : string) (finfo : FontInfo) (hu : bool) :
  snd (value (commit_custom slot name finfo hu))
  = hu || negb (is_Some_b (fTypeface (fst (value (commit_custom slot name finfo hu))))).
Proof.
  unfold commit_custom.
  destruct (fTypeface finfo) eqn:Htf.
  { simpl. rewrite Htf. simpl. by rewrite orb_false_r. }
  by destruct (detach (fCustomBuilder finfo)).
Qed.

(** X6: the native pass returns true exactly when, after it, every font
    of the registry has a typeface. *)
Theorem resolveNativeTypefaces_result (fonts : FontMap) :
  fst (value (resolveNativeTypefaces fonts))
  = all_resolved (snd (value (resolveNativeTypefaces fonts))).
Proof.
  rewrite resolveNativeTypefaces_value. cbn [fst snd]. unfold foreach.
  rewrite (foreach_from_unresolved_flag resolve_native 0 fonts false
             resolve_native_flag).
  simpl. by rewrite negb_involutive.
Qed.

(** X7: the embedded pass returns true exactly when, after it, every
    font of the registry has a typeface. *)
Theorem resolveEmbeddedTypefaces_result (jchars : ArrayValue) (fonts : FontMap) :
  fst (value (resolveEmbeddedTypefaces jchars fonts))
  = all_resolved (snd (value (resolveEmbeddedTypefaces jchars fonts))).
Proof.
  rewrite resolveEmbeddedTypefaces_value. cbn [fst snd]. unfold foreach.
  rewrite (foreach_from_unresolved_flag commit_custom 0 _ false commit_custom_flag).
  simpl. by rewrite negb_involutive.
Qed.

(** ** What the passes keep of the registry *)

Lemma foreach_from_declarations {S}
    (fn : nat -> string -> FontInfo -> S -> Logged (FontInfo * S))
    (slot : nat) (fonts : FontMap) (s : S) :
  (forall slot name finfo s,
     declaration (name, fst (value (fn slot name finfo s))) = declaration (name, finfo)) ->
  declaration <$> fst (value (foreach_from fn slot fonts s)) = declaration <$> fonts.
Proof.
  intros Hfn. revert slot s.
  induction fonts as [|[name finfo] fonts IH]; intros slot s; [done|].
  rewrite foreach_from_cons_value. cbn [fst]. rewrite !fmap_cons.
  by rewrite Hfn, IH.
Qed.

Lemma resolve_native_declaration (slot : nat) (name : string) (finfo : FontInfo)
    (s : bool) :
  declaration (name, fst (value (resolve_native slot name finfo s)))
  = declaration (name, finfo).
Proof.
  unfold resolve_native.
  destruct (fTypeface finfo); [done|].
  destruct (makeFromLoadedFont _ _); [done|]. rewrite !value_bind.
  destruct (matchFamilyStyle _ _); [done|]. by rewrite !value_bind.
Qed.

Lemma commit_custom_declaration (slot : nat) (name : string) (finfo : FontInfo)
    (s : bool) :
  declaration (name, fst (value (commit_custom slot name finfo s)))
  = declaration (name, finfo).
Proof.
  unfold commit_custom. destruct (fTypeface finfo); [done|].
  by destruct (detach (fCustomBuilder finfo)).
Qed.

Lemma sans_builders_declarations (fonts fonts' : FontMap) :
  sans_builders fonts = sans_builders fonts' ->
  declaration <$> fonts = declaration <$> fonts'.
Proof.
  intros Heq.
  assert (H : forall l : FontMap, declaration <$> l = declaration <$> sans_builders l).
  { intros l. unfold sans_builders. rewrite <- list_fmap_compose.
    apply list_fmap_ext. by intros i [n fi] _. }
  by rewrite (H fonts), (H fonts'), Heq.
Qed.

Lemma resolveNativeTypefaces_declarations (fonts : FontMap) :
  declaration <$> snd (value (resolveNativeTypefaces fonts)) = declaration <$> fonts.
Proof.
  rewrite resolveNativeTypefaces_value. cbn [snd].
  apply foreach_from_declarations, resolve_native_declaration.
Qed.

Lemma resolveEmbeddedTypefaces_declarations (jchars : ArrayValue) (fonts : FontMap) :
  declaration <$> snd (value (resolveEmbeddedTypefaces jchars fonts))
  = declaration <$> fonts.
Proof.
  rewrite resolveEmbeddedTypefaces_value. cbn [snd]. unfold foreach.
  rewrite foreach_from_declarations by apply commit_custom_declaration.
  apply sans_builders_declarations.
  apply (embed_glyphs_sans_builders jchars (fonts, None)).
Qed.

(** The registry [parseFonts] leaves, pass by pass. *)
Lemma parseFonts_value (kPreferEmbeddedFonts : bool) (jfonts : option ObjectValue)
    (jchars : option ArrayValue) (fFonts : FontMap) (jlist : ArrayValue) :
  (jfonts ≫= (fun o => as_array (member o "list"))) = Some jlist ->
  let fonts1 := value (for_each collect_font jlist fFonts) in
  value (parseFonts kPreferEmbeddedFonts jfonts jchars fFonts)
  = match jchars with
    | Some jchars' =>
        if kPreferEmbeddedFonts then
          let r := value (resolveEmbeddedTypefaces jchars' fonts1) in
          if fst r then snd r else snd (value (resolveNativeTypefaces (snd r)))
        else
          let r := value (resolveNativeTypefaces fonts1) in
          if fst r then snd r
          else snd (value (resolveEmbeddedTypefaces jchars' (snd r)))
    | None => snd (value (resolveNativeTypefaces fonts1))
    end.
Proof.
  intros Hlist fonts1. unfold parseFonts. rewrite Hlist, value_bind.
  fold fonts1. destruct jchars as [jchars'|]; [destruct kPreferEmbeddedFonts|].
  - rewrite value_bind.
    destruct (value (resolveEmbeddedTypefaces jchars' fonts1)) as [[] fonts2];
      [done|].
    cbn [fst snd]. rewrite value_bind.
    by destruct (value (resolveNativeTypefaces fonts2)) as [[] fonts3].
  - rewrite value_bind. cbn [value mret Logged_ret fst]. rewrite value_bind.
    destruct (value (resolveNativeTypefaces fonts1)) as [[] fonts3]; [done|].
    cbn [fst snd negb]. rewrite value_bind.
    by destruct (value (resolveEmbeddedTypefaces jchars' fonts3)).
  - rewrite value_bind. cbn [value mret Logged_ret fst]. rewrite value_bind.
    by destruct (value (resolveNativeTypefaces fonts1)) as [[] fonts3].
Qed.

Lemma parseFonts_declarations (kPreferEmbeddedFonts : bool)
    (jfonts : option ObjectValue) (jchars : option ArrayValue) (fFonts : FontMap) :
  declaration <$> value (parseFonts kPreferEmbeddedFonts jfonts jchars fFonts)
  = declaration
      <$> value (for_each collect_font
                   (default [] (jfonts ≫= (fun o => as_array (member o "list"))))
                   fFonts).
Proof.
  destruct (jfonts ≫= (fun o => as_array (member o "list"))) as [jlist|] eqn:Hlist.
  - rewrite (parseFonts_value _ _ _ _ jlist Hlist). cbn [default from_option id].
    destruct jchars as [jchars'|]; [destruct kPreferEmbeddedFonts|]; cbv zeta.
    + destruct (fst _);
        rewrite ?resolveNativeTypefaces_declarations;
        apply resolveEmbeddedTypefaces_declarations.
    + destruct (fst _);
        rewrite ?resolveEmbeddedTypefaces_declarations;
        apply resolveNativeTypefaces_declarations.
    + apply resolveNativeTypefaces_declarations.
  - unfold parseFonts. by rewrite Hlist.
Qed.

(** X8: the resolution passes keep the registry as the first pass left
    it, up to typefaces and builders: after [parseFonts] the registry has
    the same names, in the same order, with the same family, style, path
    and ascent as after the collection of the declarations. *)
Theorem parseFonts_keeps_declarations (kPreferEmbeddedFonts : bool)
    (jfonts : option ObjectValue) (jchars : option ArrayValue) (fFonts : FontMap) :
  declaration <$> value (parseFonts kPreferEmbeddedFonts jfonts jchars fFonts)
  = declaration
      <$> value (for_each collect_font
                   (default [] (jfonts ≫= (fun o => as_array (member o "list"))))
                   fFonts).
Proof. apply parseFonts_declarations. Qed.

(** ** Lookup by name after [parseFonts] *)

Lemma FontMap_find_declarations (fonts fonts' : FontMap) (name : string) :
  declaration <$> fonts = declaration <$> fonts' ->
  (fun finfo => snd (declaration (name, finfo))) <$> FontMap_find fonts name
  = (fun finfo => snd (declaration (name, finfo))) <$> FontMap_find fonts' name.
Proof.
  revert fonts'. induction fonts as [|[k v] fonts IH];
    intros [|[k' v'] fonts'] Heq; try done.
  rewrite !fmap_cons in Heq. injection Heq as -> Hfam Hsty Hpath Hasc Hrest.
  cbn [FontMap_find]. destruct (String.eqb k' name); [|by apply IH].
  unfold declaration. simpl. by rewrite Hfam, Hsty, Hpath, Hasc.
Qed.

Lemma declarations_keys (fonts fonts' : FontMap) :
  declaration <$> fonts = declaration <$> fonts' -> fonts.*1 = fonts'.*1.
Proof.
  intros Heq. apply (f_equal (fmap fst)) in Heq.
  by rewrite <- !list_fmap_compose in Heq.
Qed.

Lemma FontMap_find_absent (fonts : FontMap) (name : string) :
  name ∉ fonts.*1 -> FontMap_find fonts name = None.
Proof.
  induction fonts as [|[k v] fonts IH]; [done|].
  rewrite fmap_cons, not_elem_of_cons. cbn [fst]. intros [Hne Hnin].
  cbn [FontMap_find]. destruct (String.eqb k name) eqn:E; [|by apply IH].
  apply String.eqb_eq in E. congruence.
Qed.

Lemma collect_keys (jlist : ArrayValue) (fFonts : FontMap) (k : string) :
  k ∈ (value (for_each collect_font jlist fFonts)).*1 ->
  k ∈ fFonts.*1 \/ exists v, v ∈ jlist /\ declared_name v = Some k.
Proof.
  revert fFonts. induction jlist as [|v jlist IH]; intros fFonts; [by left|].
  cbn [for_each]. rewrite value_bind. intros [Hk|(v' & Hv' & Hd)]%IH.
  - destruct (declared_name v) as [n|] eqn:E.
    + destruct (collect_font_declared fFonts v n E) as [fi Hfi].
      rewrite Hfi in Hk. apply FontMap_set_keys in Hk as [->|Hk]; [|by left].
      right. exists v. split; [by left|done].
    + rewrite collect_font_undeclared in Hk by done. by left.
  - right. exists v'. split; [by right|done].
Qed.

Lemma collect_find_last (pre post : ArrayValue) (jfont : ObjectValue)
    (jname jfamily jstyle : string) (fFonts : FontMap) :
  NoDup fFonts.*1 ->
  as_string (member jfont "fName") = Some jname ->
  as_string (member jfont "fFamily") = Some jfamily ->
  as_string (member jfont "fStyle") = Some jstyle ->
  jname <> EmptyString -> jfamily <> EmptyString -> jstyle <> EmptyString ->
  (forall v, v ∈ post -> declared_name v <> Some jname) ->
  FontMap_find (value (for_each collect_font (pre ++ JObject jfont :: post) fFonts))
               jname
  = Some (declared_info jfont jfamily jstyle).
Proof.
  intros Hnd Hn Hf Hs Hne1 Hne2 Hne3 Hpost.
  rewrite for_each_app_value. cbn [for_each]. rewrite value_bind.
  rewrite (collect_font_valid _ jfont jname jfamily jstyle) by done.
  unfold value at 2. cbn [fst].
  apply collect_keeps_entry; [|apply FontMap_find_set|done].
  apply FontMap_set_NoDup. by apply collect_NoDup.
Qed.

(** X9: a font that is validly declared can be looked up by its name
    after [parseFonts], whatever the glyph data and the flag: the entry
    found has the family, style, path and ascent of the last valid
    declaration of that name. *)
Theorem parseFonts_declared_font_found (kPreferEmbeddedFonts : bool)
    (jfonts : option ObjectValue) (jchars : option ArrayValue)
    (pre post : ArrayValue) (jfont : ObjectValue)
    (jname jfamily jstyle : string) (fFonts : FontMap) :
  NoDup fFonts.*1 ->
  (jfonts ≫= (fun o => as_array (member o "list")))
  = Some (pre ++ JObject jfont :: post) ->
  as_string (member jfont "fName") = Some jname ->
  as_string (member jfont "fFamily") = Some jfamily ->
  as_string (member jfont "fStyle") = Some jstyle ->
  jname <> EmptyString -> jfamily <> EmptyString -> jstyle <> EmptyString ->
  (forall v, v ∈ post -> declared_name v <> Some jname) ->
  exists finfo,
    findFont (value (parseFonts kPreferEmbeddedFonts jfonts jchars fFonts)) jname
    = Some finfo
    /\ fFamily finfo = jfamily /\ fStyle finfo = jstyle
    /\ fPath finfo = default EmptyString (as_string (member jfont "fPath"))
    /\ fAscentPct finfo = ParseDefault (member jfont "ascent") SK_Scalar0.
Proof.
  intros Hnd Hlist Hn Hf Hs Hne1 Hne2 Hne3 Hpost.
  pose proof (parseFonts_declarations kPreferEmbeddedFonts jfonts jchars fFonts)
    as Hkeep.
  rewrite Hlist in Hkeep. cbn [default from_option id] in Hkeep.
  apply (FontMap_find_declarations _ _ jname) in Hkeep.
  rewrite (collect_find_last pre post jfont jname jfamily jstyle) in Hkeep by done.
  unfold findFont.
  destruct (FontMap_find (value (parseFonts _ jfonts jchars fFonts)) jname)
    as [finfo|]; [|done].
  exists finfo. split; [done|]. unfold declaration, declared_info in Hkeep.
  by injection Hkeep as -> -> -> ->.
Qed.

(** X10: a name that is neither in the registry before nor the name of a
    valid declaration of the list is not found after [parseFonts]. *)
Theorem parseFonts_undeclared_font_not_found (kPreferEmbeddedFonts : bool)
    (jfonts : option ObjectValue) (jchars : option ArrayValue)
    (fFonts : FontMap) (name : string) :
  name ∉ fFonts.*1 ->
  (forall jlist v, (jfonts ≫= (fun o => as_array (member o "list"))) = Some jlist ->
     v ∈ jlist -> declared_name v <> Some name) ->
  findFont (value (parseFonts kPreferEmbeddedFonts jfonts jchars fFonts)) name = None.
Proof.
  intros Hnin Hlist. apply FontMap_find_absent.
  rewrite (declarations_keys _ _
             (parseFonts_declarations kPreferEmbeddedFonts jfonts jchars fFonts)).
  destruct (jfonts ≫= (fun o => as_array (member o "list"))) as [jlist|];
    cbn [default from_option id]; [|done].
  intros [Hin|(v & Hv & Hd)]%collect_keys; [done|].
  by apply (Hlist jlist v).
Qed.

(** ** The order of the tiers of the native pass *)

Lemma resolve_native_entry (slot : nat) (name : string) (finfo : FontInfo) (s : bool) :
  fst (value (resolve_native slot name finfo s))
  = fst (value (resolve_native 0 name finfo false)).
Proof.
  unfold resolve_native. destruct (fTypeface finfo); [done|].
  destruct (makeFromLoadedFont _ _); [done|]. rewrite !value_bind.
  destruct (matchFamilyStyle _ _); [done|]. by rewrite !value_bind.
Qed.

Lemma FontMap_find_entrywise (g : string -> FontInfo -> FontInfo) (fonts : FontMap)
    (name : string) :
  FontMap_find ((fun e => (fst e, g (fst e) (snd e))) <$> fonts) name
  = g name <$> FontMap_find fonts name.
Proof.
  induction fonts as [|[k v] fonts IH]; [done|].
  rewrite fmap_cons. cbn [FontMap_find fst snd].
  destruct (String.eqb k name) eqn:E; [|done].
  by apply String.eqb_eq in E as ->.
Qed.

Lemma resolveNativeTypefaces_find (fonts : FontMap) (name : string) :
  FontMap_find (snd (value (resolveNativeTypefaces fonts))) name
  = (fun finfo => fst (value (resolve_native 0 name finfo false)))
      <$> FontMap_find fonts name.
Proof.
  rewrite resolveNativeTypefaces_value. cbn [snd]. unfold foreach.
  rewrite (foreach_from_entrywise resolve_native
             (fun n fi => fst (value (resolve_native 0 n fi false))))
    by apply resolve_native_entry.
  apply (FontMap_find_entrywise
           (fun n fi => fst (value (resolve_native 0 n fi false)))).
Qed.

(** X11: the native pass gives a font without a typeface, whatever the
    other fonts are, (1) the typeface made from the data the resource
    provider loads for its name and path, when there is one; (2) else the
    system's match for its family and parsed style, when there is one;
    (3) else what the legacy default for the parsed style gives, which
    may be none. *)
Theorem resolveNativeTypefaces_tiers (fonts : FontMap) (name : string)
    (finfo : FontInfo) :
  FontMap_find fonts name = Some finfo ->
  fTypeface finfo = None ->
  let loaded := makeFromLoadedFont (c_str name) (c_str (fPath finfo)) in
  let style := value (FontStyle (c_str (fStyle finfo))) in
  let matched := matchFamilyStyle (c_str (fFamily finfo)) style in
  FontMap_find (snd (value (resolveNativeTypefaces fonts))) name
  = Some (with_typeface finfo
            (match loaded, matched with
             | Some tf, _ => Some tf
             | None, Some tf => Some tf
             | None, None => legacyMakeTypeface style
             end)).
Proof.
  intros Hfind Htf loaded style matched.
  rewrite resolveNativeTypefaces_find, Hfind. cbn [fmap option_fmap option_map].
  f_equal. unfold resolve_native. rewrite Htf. fold loaded.
  destruct loaded; [done|]. rewrite !value_bind. fold style. fold matched.
  destruct matched; [done|]. by rewrite !value_bind.
Qed.

(** ** The passes of a run *)

Lemma passes_app (l1 l2 : list Event) : passes (l1 ++ l2) = passes l1 ++ passes l2.
Proof.
  induction l1 as [|[lvl msg|q] l1 IH]; simpl; [done|done|]. by rewrite IH.
Qed.

Lemma passes_bind {A B} (m : Logged A) (f : A -> Logged B) :
  passes (events (m ≫= f)) = passes (events m) ++ passes (events (f (value m))).
Proof. by rewrite events_bind, passes_app. Qed.

Lemma FontStyle_passes (style : string) : passes (events (FontStyle style)) = [].
Proof.
  unfold FontStyle.
  destruct (scan_weights gWeightMap kNormal_Weight style) as [w s1].
  destruct s1 as [|c s1]; cbn [at_end negb]; [done|].
  destruct (scan_slants gSlantMap kUpright_Slant (String c s1)) as [sl s2].
  by destruct s2.
Qed.

Lemma resolve_native_passes (slot : nat) (name : string) (finfo : FontInfo) (s : bool) :
  passes (events (resolve_native slot name finfo s)) = [].
Proof.
  unfold resolve_native. destruct (fTypeface finfo); [done|].
  destruct (makeFromLoadedFont _ _); [done|].
  rewrite passes_bind, FontStyle_passes.
  destruct (matchFamilyStyle _ _); [done|].
  by rewrite !passes_bind, FontStyle_passes.
Qed.

Lemma commit_custom_passes (slot : nat) (name : string) (finfo : FontInfo) (s : bool) :
  passes (events (commit_custom slot name finfo s)) = [].
Proof.
  unfold commit_custom. destruct (fTypeface finfo); [done|].
  by destruct (detach (fCustomBuilder finfo)).
Qed.

Lemma collect_font_passes (fFonts : FontMap) (v : json) :
  passes (events (collect_font fFonts v)) = [].
Proof.
  unfold collect_font.
  destruct (as_object v) as [jfont|]; [|done].
  destruct (as_string (member jfont "fName")) as [jname|]; [|done].
  destruct (as_string (member jfont "fFamily")) as [jfamily|]; [|done].
  destruct (as_string (member jfont "fStyle")) as [jstyle|]; [|done].
  by destruct (_ || _).
Qed.

Lemma embed_glyph_passes (st : FontMap * option nat) (v : json) :
  passes (events (embed_glyph st v)) = [].
Proof.
  destruct st as [fonts cur]. unfold embed_glyph.
  destruct (as_object v) as [jchar|]; [|done].
  destruct (as_string (member jchar "ch")) as [jch|]; [|done].
  destruct (as_string (member jchar "fFamily")) as [jfamily|]; [|done].
  destruct (as_string (member jchar "style")) as [jstyle|]; [|done].
  destruct (negb (CountUTF8 jch =? 1)%Z); [done|].
  destruct (negb (SkTFitsIn_SkGlyphID (NextUTF8 jch))); [done|].
  destruct (locate_font fonts cur (c_str jfamily) (c_str jstyle)); [|done].
  by destruct (parse_glyph_path (as_object (member jchar "data")) []) as [[] path].
Qed.

Lemma for_each_passes {St} (body : St -> json -> Logged St) (vs : ArrayValue) (st : St) :
  (forall st v, passes (events (body st v)) = []) ->
  passes (events (for_each body vs st)) = [].
Proof.
  intros Hbody. revert st. induction vs as [|v vs IH]; intros st; [done|].
  cbn [for_each]. by rewrite passes_bind, Hbody, IH.
Qed.

Lemma foreach_from_passes {S}
    (fn : nat -> string -> FontInfo -> S -> Logged (FontInfo * S))
    (slot : nat) (fonts : FontMap) (s : S) :
  (forall slot name finfo s, passes (events (fn slot name finfo s)) = []) ->
  passes (events (foreach_from fn slot fonts s)) = [].
Proof.
  intros Hfn. revert slot s.
  induction fonts as [|[name finfo] fonts IH]; intros slot s; [done|].
  by rewrite foreach_from_cons_events, passes_app, Hfn, IH.
Qed.

Lemma resolveNativeTypefaces_passes (fonts : FontMap) :
  passes (events (resolveNativeTypefaces fonts)) = [NativePass].
Proof.
  unfold resolveNativeTypefaces. rewrite !passes_bind. unfold foreach.
  rewrite (foreach_from_passes resolve_native) by apply resolve_native_passes.
  by destruct (value (foreach_from resolve_native 0 fonts false)).
Qed.

Lemma resolveEmbeddedTypefaces_passes (jchars : ArrayValue) (fonts : FontMap) :
  passes (events (resolveEmbeddedTypefaces jchars fonts)) = [EmbeddedPass].
Proof.
  unfold resolveEmbeddedTypefaces. rewrite !passes_bind.
  rewrite (for_each_passes embed_glyph) by apply embed_glyph_passes.
  destruct (value (for_each embed_glyph jchars (fonts, None))) as [fonts1 cur].
  rewrite passes_bind. unfold foreach.
  rewrite (foreach_from_passes commit_custom) by apply commit_custom_passes.
  by destruct (value (foreach_from commit_custom 0 fonts1 false)).
Qed.

(** X12: the passes of a run of [parseFonts], in order. Without a font
    list no pass runs. With the flag set and glyph data, the embedded
    pass runs first and the native pass follows only when the embedded
    pass left a font unresolved. Otherwise the native pass runs first,
    and the embedded pass follows only when there is glyph data and the
    native pass left a font unresolved. No pass runs twice. *)
Theorem parseFonts_pass_order (kPreferEmbeddedFonts : bool)
    (jfonts : option ObjectValue) (jchars : option ArrayValue) (fFonts : FontMap) :
  passes (events (parseFonts kPreferEmbeddedFonts jfonts jchars fFonts))
  = match jfonts ≫= (fun o => as_array (member o "list")) with
    | None => []
    | Some jlist =>
        let fonts1 := value (for_each collect_font jlist fFonts) in
        match jchars with
        | Some jchars' =>
            if kPreferEmbeddedFonts then
              if fst (value (resolveEmbeddedTypefaces jchars' fonts1))
              then [EmbeddedPass] else [EmbeddedPass; NativePass]
            else
              if fst (value (resolveNativeTypefaces fonts1))
              then [NativePass] else [NativePass; EmbeddedPass]
        | None => [NativePass]
        end
    end.
Proof.
  unfold parseFonts.
  destruct (jfonts ≫= (fun o => as_array (member o "list"))) as [jlist|]; [|done].
  rewrite passes_bind, (for_each_passes collect_font) by apply collect_font_passes.
  cbn [app]. cbv zeta.
  set (fonts1 := value (for_each collect_font jlist fFonts)).
  destruct jchars as [jchars'|]; [destruct kPreferEmbeddedFonts|].
  - rewrite passes_bind, resolveEmbeddedTypefaces_passes.
    destruct (value (resolveEmbeddedTypefaces jchars' fonts1)) as [[] fonts2];
      cbn [fst]; [done|].
    rewrite passes_bind, resolveNativeTypefaces_passes.
    by destruct (value (resolveNativeTypefaces fonts2)) as [[] fonts3].
  - rewrite passes_bind. cbn [events value mret Logged_ret fst snd passes app].
    rewrite passes_bind, resolveNativeTypefaces_passes.
    destruct (value (resolveNativeTypefaces fonts1)) as [[] fonts3];
      cbn [fst negb]; [done|].
    rewrite passes_bind, resolveEmbeddedTypefaces_passes.
    by destruct (value (resolveEmbeddedTypefaces jchars' fonts3)).
  - rewrite passes_bind. cbn [events value mret Logged_ret fst snd passes app].
    rewrite passes_bind, resolveNativeTypefaces_passes.
    by destruct (value (resolveNativeTypefaces fonts1)) as [[] fonts3].
Qed.

(** ** The messages of the native pass *)

Lemma foreach_from_events_elem {S}
    (fn : nat -> string -> FontInfo -> S -> Logged (FontInfo * S))
    (slot : nat) (fonts : FontMap) (s : S) (ev : Event) :
  ev ∈ events (foreach_from fn slot fonts s)
  <-> exists i name finfo s_i,
        fonts !! i = Some (name, finfo)
        /\ ev ∈ events (fn (slot + i) name finfo s_i)
        /\ s_i = snd (value (foreach_from fn slot (take i fonts) s)).
Proof.
  revert slot s. induction fonts as [|[n fi] fonts IH]; intros slot s.
  - split; [by intros ?%elem_of_nil|]. by intros (i & ? & ? & ? & ? & _).
  - rewrite foreach_from_cons_events, elem_of_app, IH. split.
    + intros [Hev|(i & name & finfo & s_i & Hi & Hev & Hs)].
      * exists 0, n, fi, s. by rewrite Nat.add_0_r.
      * exists (Datatypes.S i), name, finfo, s_i.
        replace (slot + Datatypes.S i) with (Datatypes.S slot + i) by lia.
        split; [done|]. split; [done|].
        cbn [take]. by rewrite foreach_from_cons_value.
    + intros ([|i] & name & finfo & s_i & Hi & Hev & Hs).
      * left. injection Hi as -> ->. subst s_i.
        by rewrite Nat.add_0_r in Hev.
      * right. exists i, name, finfo, s_i.
        replace (slot + Datatypes.S i) with (Datatypes.S slot + i) in Hev by lia.
        split; [done|]. split; [done|].
        cbn [take] in Hs. by rewrite foreach_from_cons_value in Hs.
Qed.

Lemma FontStyle_events_warnings (style : string) (ev : Event) :
  ev ∈ events (FontStyle style) ->
  exists residual, ev = Log kWarning (UnknownFontStyle residual).
Proof.
  unfold FontStyle.
  destruct (scan_weights gWeightMap kNormal_Weight style) as [w s1].
  destruct s1 as [|c s1]; cbn [at_end negb]; [by intros ?%elem_of_nil|].
  destruct (scan_slants gSlantMap kUpright_Slant (String c s1)) as [sl s2].
  destruct s2 as [|c2 s2]; cbn [at_end negb]; [by intros ?%elem_of_nil|].
  intros ->%list_elem_of_singleton. by eexists.
Qed.

Lemma resolve_native_error (slot : nat) (name : string) (finfo : FontInfo)
    (s : bool) (family style : string) :
  Log kError (CouldNotCreateTypeface family style)
    ∈ events (resolve_native slot name finfo s)
  <-> fTypeface finfo = None
      /\ makeFromLoadedFont (c_str name) (c_str (fPath finfo)) = None
      /\ matchFamilyStyle (c_str (fFamily finfo))
                          (value (FontStyle (c_str (fStyle finfo)))) = None
      /\ family = c_str (fFamily finfo) /\ style = c_str (fStyle finfo).
Proof.
  unfold resolve_native.
  destruct (fTypeface finfo).
  { split; [by intros ?%elem_of_nil|by intros [? _]]. }
  destruct (makeFromLoadedFont _ _).
  { split; [by intros ?%elem_of_nil|by intros (_ & ? & _)]. }
  rewrite events_bind, elem_of_app.
  destruct (matchFamilyStyle _ _).
  { split; [|by intros (_ & _ & ? & _)].
    intros [[r Hr]%FontStyle_events_warnings|?%elem_of_nil]; done. }
  rewrite events_bind, elem_of_app, events_bind, elem_of_app. split.
  - intros [[r Hr]%FontStyle_events_warnings
           |[Hlog|[[r Hr]%FontStyle_events_warnings|Hret]]]; try done.
    + apply list_elem_of_singleton in Hlog. by injection Hlog as -> ->.
    + by apply elem_of_nil in Hret.
  - intros (_ & _ & _ & -> & ->). right. left. by left.
Qed.

(** X13: the native pass logs the error "Could not create typeface for
    family|style" exactly when the registry has a font of that family
    and style, without a typeface, for which the resource provider gives
    no data and the system has no match. *)
Theorem resolveNativeTypefaces_error_logged (fonts : FontMap) (family style : string) :
  Log kError (CouldNotCreateTypeface family style)
    ∈ events (resolveNativeTypefaces fonts)
  <-> exists slot name finfo,
        fonts !! slot = Some (name, finfo)
        /\ fTypeface finfo = None
        /\ makeFromLoadedFont (c_str name) (c_str (fPath finfo)) = None
        /\ matchFamilyStyle (c_str (fFamily finfo))
                            (value (FontStyle (c_str (fStyle finfo)))) = None
        /\ family = c_str (fFamily finfo) /\ style = c_str (fStyle finfo).
Proof.
  unfold resolveNativeTypefaces.
  rewrite events_bind, elem_of_app, events_bind, elem_of_app. unfold foreach.
  rewrite foreach_from_events_elem.
  destruct (value (foreach_from resolve_native 0 fonts false)) as [fonts' hu].
  split.
  - intros [Henter|[(i & name & finfo & s_i & Hi & Hev & _)|Hret]].
    + apply list_elem_of_singleton in Henter. done.
    + apply resolve_native_error in Hev. by exists i, name, finfo.
    + by apply elem_of_nil in Hret.
  - intros (i & name & finfo & Hi & Hrest). right. left.
    exists i, name, finfo, (snd (value (foreach_from resolve_native 0 (take i fonts) false))).
    split; [done|]. split; [|done]. by apply resolve_native_error.
Qed.

(** ** Running the native pass again *)

Lemma foreach_resolve_native_resolved (slot : nat) (fonts : FontMap) (s : bool) :
  all_resolved fonts = true ->
  value (foreach_from resolve_native slot fonts s) = (fonts, s)
  /\ events (foreach_from resolve_native slot fonts s) = [].
Proof.
  unfold all_resolved. revert slot.
  induction fonts as [|[name finfo] fonts IH]; intros slot; [done|].
  cbn [forallb snd]. intros [Hhd Htl]%andb_true_iff.
  destruct (fTypeface finfo) as [tf|] eqn:Htf; [|done].
  rewrite foreach_from_cons_value, foreach_from_cons_events.
  rewrite (resolve_native_resolved slot name finfo tf s Htf).
  cbn [value events fst snd app].
  destruct (IH (Datatypes.S slot) Htl) as [-> ->]. done.
Qed.

(** X14: when the native pass has returned true, running it again on the
    registry it left changes nothing: it returns true, leaves every entry
    as it is and logs no message. *)
Theorem resolveNativeTypefaces_again (fonts : FontMap) :
  fst (value (resolveNativeTypefaces fonts)) = true ->
  let fonts' := snd (value (resolveNativeTypefaces fonts)) in
  value (resolveNativeTypefaces fonts') = (true, fonts')
  /\ events (resolveNativeTypefaces fonts') = [Enter NativePass].
Proof.
  intros Hok fonts'.
  assert (Hall : all_resolved fonts' = true).
  { subst fonts'. rewrite resolveNativeTypefaces_value in Hok |- *.
    cbn [fst snd] in Hok |- *. unfold foreach in Hok |- *.
    rewrite (foreach_from_unresolved_flag resolve_native 0 fonts false
               resolve_native_flag) in Hok.
    simpl in Hok. by rewrite negb_involutive in Hok. }
  destruct (foreach_resolve_native_resolved 0 fonts' false Hall) as [Hv He].
  split.
  - rewrite resolveNativeTypefaces_value. unfold foreach. by rewrite Hv.
  - unfold resolveNativeTypefaces. rewrite events_bind, events_bind.
    unfold foreach. rewrite He, Hv. done.
Qed.

(** ** The embedded pass, record by record *)

(** A glyph record whose ["ch"] is a string, and whose family or style
    is missing or whose ["ch"] is not one code point, is reported as
    "Invalid glyph." and changes neither the registry nor the font kept
    from the previous record. *)
Lemma embed_glyph_invalid_step (st : FontMap * option nat) (jchar : ObjectValue)
    (jch : string) :
  as_string (member jchar "ch") = Some jch ->
  as_string (member jchar "fFamily") = None
  \/ as_string (member jchar "style") = None
  \/ CountUTF8 jch <> 1%Z ->
  embed_glyph st (JObject jchar) = (st, [Log kError (InvalidGlyph jchar)]).
Proof.
  intros Hch Hbad. destruct st as [fonts cur]. unfold embed_glyph.
  cbn [as_object]. rewrite Hch.
  destruct (as_string (member jchar "fFamily")) as [jfamily|];
    destruct (as_string (member jchar "style")) as [jstyle|];
    try reflexivity.
  destruct Hbad as [?|[?|Hcount]]; try done.
  apply Z.eqb_neq in Hcount. by rewrite Hcount.
Qed.

(** A well-formed glyph record whose code point is outside the range of
    [SkGlyphID] (0 to 65535) is reported as "Unsupported glyph ID." and
    changes neither the registry nor the font kept from the previous
    record. *)
Lemma embed_glyph_unsupported_id_step (st : FontMap * option nat) (jchar : ObjectValue)
    (jch jfamily jstyle : string) :
  as_string (member jchar "ch") = Some jch ->
  as_string (member jchar "fFamily") = Some jfamily ->
  as_string (member jchar "style") = Some jstyle ->
  CountUTF8 jch = 1%Z ->
  (NextUTF8 jch < 0 \/ 65535 < NextUTF8 jch)%Z ->
  embed_glyph st (JObject jchar) = (st, [Log kError (UnsupportedGlyphID jchar)]).
Proof.
  intros Hch Hfam Hsty Hcount Hrange. destruct st as [fonts cur].
  unfold embed_glyph. cbn [as_object]. rewrite Hch, Hfam, Hsty, Hcount.
  cbn [Z.eqb Pos.eqb negb].
  assert (Hfits : SkTFitsIn_SkGlyphID (NextUTF8 jch) = false).
  { unfold SkTFitsIn_SkGlyphID. apply andb_false_iff.
    destruct Hrange; [left; by apply Z.leb_gt|right; by apply Z.leb_gt]. }
  by rewrite Hfits.
Qed.

Lemma locate_font_none (fonts : FontMap) (current_font : option nat)
    (family style : string) :
  Forall (fun e => matches (snd e) family style = false) fonts ->
  locate_font fonts current_font family style = None.
Proof.
  intros Hall. unfold locate_font.
  assert (Hcur : current_matches fonts current_font family style = false).
  { unfold current_matches. destruct current_font as [slot|]; [|done].
    destruct (fonts !! slot) as [[n fi]|] eqn:Hslot; [|done].
    by apply (Forall_lookup_1 _ _ _ _ Hall Hslot). }
  rewrite Hcur. cbn [negb]. unfold scan_fonts, foreach.
  destruct (scan_from_spec family style fonts 0 None)
    as [[-> _]|(j & e & _ & Hj & Hm & _)]; [done|].
  pose proof (Forall_lookup_1 _ _ _ _ Hall Hj) as Hf. simpl in Hf. congruence.
Qed.

(** A well-formed glyph record whose family and style match no font of
    the registry is reported as "Font not found for codepoint"; the
    registry is left as it is and no font is kept for the next record. *)
Lemma embed_glyph_font_not_found_step (fonts : FontMap) (current_font : option nat)
    (jchar : ObjectValue) (jch jfamily jstyle : string) :
  as_string (member jchar "ch") = Some jch ->
  as_string (member jchar "fFamily") = Some jfamily ->
  as_string (member jchar "style") = Some jstyle ->
  CountUTF8 jch = 1%Z ->
  SkTFitsIn_SkGlyphID (NextUTF8 jch) = true ->
  Forall (fun e => matches (snd e) (c_str jfamily) (c_str jstyle) = false) fonts ->
  embed_glyph (fonts, current_font) (JObject jchar)
  = ((fonts, None),
     [Log kError (FontNotFound (NextUTF8 jch) (c_str jfamily) (c_str jstyle))]).
Proof.
  intros Hch Hfam Hsty Hcount Hfits Hall. unfold embed_glyph.
  cbn [as_object]. rewrite Hch, Hfam, Hsty, Hcount, Hfits.
  cbn [Z.eqb Pos.eqb negb]. by rewrite (locate_font_none _ _ _ _ Hall).
Qed.

(** A well-formed glyph record whose font is found and whose outline
    extraction fails is dropped without any message: the registry is left
    as it is; the font found is kept for the next record. *)
Lemma embed_glyph_outline_rejected_step (fonts : FontMap) (current_font : option nat)
    (jchar : ObjectValue) (jch jfamily jstyle : string) (slot : nat) :
  as_string (member jchar "ch") = Some jch ->
  as_string (member jchar "fFamily") = Some jfamily ->
  as_string (member jchar "style") = Some jstyle ->
  CountUTF8 jch = 1%Z ->
  SkTFitsIn_SkGlyphID (NextUTF8 jch) = true ->
  locate_font fonts current_font (c_str jfamily) (c_str jstyle) = Some slot ->
  fst (parse_glyph_path (as_object (member jchar "data")) []) = false ->
  embed_glyph (fonts, current_font) (JObject jchar) = ((fonts, Some slot), []).
Proof.
  intros Hch Hfam Hsty Hcount Hfits Hloc Hpath. unfold embed_glyph.
  cbn [as_object]. rewrite Hch, Hfam, Hsty, Hcount, Hfits, Hloc.
  cbn [Z.eqb Pos.eqb negb].
  destruct (parse_glyph_path (as_object (member jchar "data")) []) as [ok path].
  cbn [fst] in Hpath. by subst ok.
Qed.

(** X19: an accepted glyph record changes the builder of the font it
    belongs to and nothing else: that entry keeps its name, metadata and
    typeface and its builder then holds the glyph, with the advance and
    the outline scaled by [kPtScale]; every other entry is as before, and
    the registry has as many entries as before. *)
Theorem embed_glyph_updates_one_builder (fonts : FontMap) (current_font : option nat)
    (jchar : ObjectValue) (jch jfamily jstyle : string) (slot : nat)
    (path : SkPath) (name : string) (finfo : FontInfo) :
  as_string (member jchar "ch") = Some jch ->
  as_string (member jchar "fFamily") = Some jfamily ->
  as_string (member jchar "style") = Some jstyle ->
  CountUTF8 jch = 1%Z ->
  SkTFitsIn_SkGlyphID (NextUTF8 jch) = true ->
  locate_font fonts current_font (c_str jfamily) (c_str jstyle) = Some slot ->
  parse_glyph_path (as_object (member jchar "data")) [] = (true, path) ->
  fonts !! slot = Some (name, finfo) ->
  let fonts' := fst (value (embed_glyph (fonts, current_font) (JObject jchar))) in
  (exists b,
     fonts' !! slot = Some (name, with_builder finfo b)
     /\ mkGlyphRec (NextUTF8 jch)
          (SkScalarMul (ParseDefault (member jchar "w") SK_Scalar0) kPtScale)
          (transform_scale kPtScale kPtScale path) ∈ b)
  /\ (forall j, j <> slot -> fonts' !! j = fonts !! j)
  /\ length fonts' = length fonts.
Proof.
  intros Hch Hfam Hsty Hcount Hfits Hloc Hpath Hslot fonts'. subst fonts'.
  rewrite (embed_glyph_stores_scaled fonts current_font jchar jch jfamily jstyle
             slot path) by done.
  cbn [fst]. unfold set_font_glyph. rewrite Hslot.
  split; [|split].
  - eexists. split; [|apply setGlyph_stored].
    apply list_lookup_insert_eq. by eapply lookup_lt_Some.
  - intros j Hj. by apply list_lookup_insert_ne.
  - apply length_insert.
Qed.

(** ** From a declaration to a typeface *)

(** X20: without glyph data, a validly declared font ends, under its
    name, with the declared family, style, path and ascent and with the
    typeface of the first tier of the native pass that gives one: the
    data loaded for its name and path, else the system's match for its
    family and parsed style, else the legacy default. *)
Theorem parseFonts_native_end_to_end (kPreferEmbeddedFonts : bool)
    (jfonts : option ObjectValue) (pre post : ArrayValue) (jfont : ObjectValue)
    (jname jfamily jstyle : string) (fFonts : FontMap) :
  NoDup fFonts.*1 ->
  (jfonts ≫= (fun o => as_array (member o "list")))
  = Some (pre ++ JObject jfont :: post) ->
  as_string (member jfont "fName") = Some jname ->
  as_string (member jfont "fFamily") = Some jfamily ->
  as_string (member jfont "fStyle") = Some jstyle ->
  jname <> EmptyString -> jfamily <> EmptyString -> jstyle <> EmptyString ->
  (forall v, v ∈ post -> declared_name v <> Some jname) ->
  let finfo := declared_info jfont jfamily jstyle in
  let loaded := makeFromLoadedFont (c_str jname) (c_str (fPath finfo)) in
  let style := value (FontStyle (c_str jstyle)) in
  let matched := matchFamilyStyle (c_str jfamily) style in
  findFont (value (parseFonts kPreferEmbeddedFonts jfonts None fFonts)) jname
  = Some (with_typeface finfo
            (match loaded, matched with
             | Some tf, _ => Some tf
             | None, Some tf => Some tf
             | None, None => legacyMakeTypeface style
             end)).
Proof.
  intros Hnd Hlist Hn Hf Hs Hne1 Hne2 Hne3 Hpost finfo loaded style matched.
  rewrite (parseFonts_value _ _ _ _ _ Hlist). cbv zeta. unfold findFont.
  rewrite resolveNativeTypefaces_find.
  rewrite (collect_find_last pre post jfont jname jfamily jstyle) by done.
  cbn [fmap option_fmap option_map]. f_equal. fold finfo.
  unfold resolve_native. cbn [fTypeface finfo declared_info]. fold finfo.
  change (fPath finfo) with (default EmptyString (as_string (member jfont "fPath"))).
  change (makeFromLoadedFont (c_str jname)
            (c_str (default EmptyString (as_string (member jfont "fPath")))))
    with loaded.
  destruct loaded; [done|]. rewrite !value_bind.
  change (value (FontStyle (c_str (fStyle finfo)))) with style.
  change (matchFamilyStyle (c_str (fFamily finfo)) style) with matched.
  destruct matched; [done|]. by rewrite !value_bind.
Qed.

(** ** The messages of the first pass and the path on every exit *)

Lemma collect_font_events (fFonts : FontMap) (v : json) :
  events (collect_font fFonts v)
  = match declared_name v with
    | Some _ => []
    | None => match as_object v with
              | Some jfont => [Log kError (InvalidFont jfont)]
              | None => []
              end
    end.
Proof.
  unfold collect_font, declared_name.
  destruct (as_object v) as [jfont|]; [|done].
  destruct (as_string (member jfont "fName")) as [jname|]; [|done].
  destruct (as_string (member jfont "fFamily")) as [jfamily|]; [|done].
  destruct (as_string (member jfont "fStyle")) as [jstyle|]; [|done].
  by destruct (_ || _).
Qed.

(** X21: the first pass of [parseFonts] logs one "Invalid font." error
    for each object of the list that is not a valid declaration, in the
    order of the list, and nothing else. *)
Theorem collect_fonts_log (jlist : ArrayValue) (fFonts : FontMap) :
  events (for_each collect_font jlist fFonts)
  = (fun jfont => Log kError (InvalidFont jfont)) <$> invalid_declarations jlist.
Proof.
  revert fFonts. induction jlist as [|v jlist IH]; intros fFonts; [done|].
  cbn [for_each]. rewrite events_bind, IH, collect_font_events.
  unfold invalid_declarations. cbn [omap list_omap].
  destruct (declared_name v); [done|].
  by destruct (as_object v).
Qed.

Lemma parse_glyph_items_extends (jit : ArrayValue) (path : SkPath) :
  exists tail, snd (parse_glyph_items jit path) = path ++ tail.
Proof.
  revert path. induction jit as [|v jit IH]; intros path;
    [exists []; simpl; by rewrite app_nil_r|].
  cbn [parse_glyph_items].
  destruct (as_object v) as [jshape|];
    [|exists []; simpl; by rewrite app_nil_r].
  destruct (attachPath (member jshape "ks")) as [[p|] [|a anims]];
    try (exists []; simpl; by rewrite app_nil_r).
  destruct (IH (addPath path p)) as [tail ->]. exists (p ++ tail).
  unfold addPath. by rewrite app_assoc.
Qed.

(** On every exit, success or failure, the path [parse_glyph_path]
    leaves starts with the path it was given. *)
Lemma parse_glyph_path_keeps_prefix (jdata : option ObjectValue) (path : SkPath) :
  exists tail, snd (parse_glyph_path jdata path) = path ++ tail.
Proof.
  unfold parse_glyph_path.
  destruct jdata as [jdata|]; [|exists []; simpl; by rewrite app_nil_r].
  destruct (as_array (member jdata "shapes")) as [jshapes|];
    [|exists []; simpl; by rewrite app_nil_r].
  revert path. induction jshapes as [|v jshapes IH]; intros path;
    [exists []; simpl; by rewrite app_nil_r|].
  cbn [parse_glyph_groups].
  destruct (as_object v) as [jgrp|]; [|exists []; simpl; by rewrite app_nil_r].
  destruct (as_array (member jgrp "it")) as [jit|];
    [|exists []; simpl; by rewrite app_nil_r].
  destruct (parse_glyph_items_extends jit path) as [t1 H1].
  destruct (parse_glyph_items jit path) as [[] path']; cbn [snd] in H1; subst path'.
  - destruct (IH (path ++ t1)) as [t2 ->]. exists (t1 ++ t2). by rewrite app_assoc.
  - by exists t1.
Qed.

(** ** Records that add no glyph *)

Lemma locate_font_scan (fonts : FontMap) (current_font : option nat)
    (family style : string) :
  cache_valid fonts current_font ->
  locate_font fonts current_font family style = scan_fonts fonts family style.
Proof.
  intros Hvalid. unfold locate_font.
  destruct (current_matches fonts current_font family style) eqn:Hcur; [|done].
  cbn [negb]. unfold current_matches in Hcur.
  destruct current_font as [slot|]; [|done].
  destruct (fonts !! slot) as [[name finfo]|] eqn:Hslot; [|done].
  destruct Hvalid as [|(f & s & Hfs)]; [done|].
  assert (Hm : matches finfo f s = true).
  { unfold scan_fonts, foreach in Hfs.
    destruct (scan_from_spec f s fonts 0 None)
      as [[Hr _]|(j & e & Hr & Hj & Hm & _)]; rewrite Hr in Hfs; [done|].
    injection Hfs as <-. simpl in Hslot. rewrite Hslot in Hj.
    by injection Hj as <-. }
  destruct (matches_same_query _ _ _ _ _ Hcur Hm) as [-> ->]. by rewrite Hfs.
Qed.

Lemma embed_glyph_cache_independent (fonts : FontMap) (c1 c2 : option nat) (v : json) :
  cache_valid fonts c1 -> cache_valid fonts c2 ->
  value (embed_glyph (fonts, c1) v) = value (embed_glyph (fonts, c2) v)
  \/ (value (embed_glyph (fonts, c1) v) = (fonts, c1)
      /\ value (embed_glyph (fonts, c2) v) = (fonts, c2)).
Proof.
  intros H1 H2. unfold embed_glyph.
  destruct (as_object v) as [jchar|]; [|by right].
  destruct (as_string (member jchar "ch")) as [jch|]; [|by right].
  destruct (as_string (member jchar "fFamily")) as [jfamily|]; [|by right].
  destruct (as_string (member jchar "style")) as [jstyle|]; [|by right].
  destruct (negb (CountUTF8 jch =? 1)%Z); [by right|].
  destruct (negb (SkTFitsIn_SkGlyphID (NextUTF8 jch))); [by right|].
  rewrite !locate_font_scan by done. by left.
Qed.

Lemma embed_glyphs_cache_independent (jchars : ArrayValue) (fonts : FontMap)
    (c1 c2 : option nat) :
  cache_valid fonts c1 -> cache_valid fonts c2 ->
  fst (value (for_each embed_glyph jchars (fonts, c1)))
  = fst (value (for_each embed_glyph jchars (fonts, c2))).
Proof.
  revert fonts c1 c2. induction jchars as [|v jchars IH]; intros fonts c1 c2 H1 H2;
    [done|].
  cbn [for_each]. rewrite !value_bind.
  destruct (embed_glyph_cache_independent fonts c1 c2 v H1 H2) as [->|[-> ->]];
    [done|by apply IH].
Qed.

Lemma skipped_record_value (pre post : ArrayValue) (v : json)
    (fonts : FontMap) :
  fst (value (embed_glyph (value (for_each embed_glyph pre (fonts, None))) v))
  = fst (value (for_each embed_glyph pre (fonts, None))) ->
  value (resolveEmbeddedTypefaces (pre ++ v :: post) fonts)
  = value (resolveEmbeddedTypefaces (pre ++ post) fonts).
Proof.
  intros Hskip. rewrite !resolveEmbeddedTypefaces_value. cbv zeta.
  rewrite !for_each_app_value. cbn [for_each]. rewrite value_bind.
  pose proof (embed_glyphs_cache_valid pre (fonts, None)) as Hvalid.
  pose proof (embed_glyph_cache_valid
                (value (for_each embed_glyph pre (fonts, None))) v) as Hvalid'.
  destruct (value (for_each embed_glyph pre (fonts, None))) as [fonts1 c1].
  destruct (value (embed_glyph (fonts1, c1) v)) as [fonts2 c2].
  cbn [fst snd] in *. subst fonts2.
  rewrite (embed_glyphs_cache_independent post fonts1 c2 c1);
    [done| |]; [apply Hvalid'|]; apply Hvalid; by left.
Qed.

Lemma embed_glyphs_scanning_from (jchars : ArrayValue) (fonts : FontMap)
    (current_font : option nat) :
  cache_valid fonts current_font ->
  fst (value (for_each embed_glyph jchars (fonts, current_font)))
  = embed_glyphs_scanning jchars fonts.
Proof.
  unfold embed_glyphs_scanning. revert fonts current_font.
  induction jchars as [|v jchars IH]; intros fonts c Hvalid; [done|].
  cbn [for_each foldl]. rewrite value_bind.
  pose proof (embed_glyph_cache_valid (fonts, c) v Hvalid) as Hvalid'.
  destruct (embed_glyph_cache_independent fonts c None v Hvalid) as [Heq|[Hc Hn]];
    [by left| |].
  - rewrite <- Heq.
    destruct (value (embed_glyph (fonts, c) v)) as [fonts' c']. by apply IH.
  - rewrite Hc, Hn. by apply IH.
Qed.

(** X23: the font kept from one glyph record to the next is only a
    shortcut: the registry the loop over the glyph list produces is the
    registry obtained when the fonts are scanned afresh for every
    record. *)
Theorem embed_glyphs_cache_is_shortcut (jchars : ArrayValue) (fonts : FontMap) :
  fst (value (for_each embed_glyph jchars (fonts, None)))
  = embed_glyphs_scanning jchars fonts.
Proof. apply embed_glyphs_scanning_from. by left. Qed.

(** ** Rejected records and the result of the embedded pass *)

Lemma for_each_app_events {St} (body : St -> json -> Logged St)
    (vs ws : ArrayValue) (st : St) :
  events (for_each body (vs ++ ws) st)
  = events (for_each body vs st)
    ++ events (for_each body ws (value (for_each body vs st))).
Proof.
  revert st. induction vs as [|v vs IH]; intros st; [done|].
  cbn [for_each app]. by rewrite !events_bind, value_bind, IH, app_assoc.
Qed.

Lemma resolveEmbeddedTypefaces_glyph_event (jchars : ArrayValue) (fonts : FontMap)
    (ev : Event) :
  ev ∈ events (for_each embed_glyph jchars (fonts, None)) ->
  ev ∈ events (resolveEmbeddedTypefaces jchars fonts).
Proof.
  intros Hev. unfold resolveEmbeddedTypefaces.
  rewrite events_bind, elem_of_app. right.
  rewrite events_bind, elem_of_app. by left.
Qed.

Lemma record_event (pre post : ArrayValue) (v : json) (fonts : FontMap) (ev : Event) :
  ev ∈ events (embed_glyph (value (for_each embed_glyph pre (fonts, None))) v) ->
  ev ∈ events (resolveEmbeddedTypefaces (pre ++ v :: post) fonts).
Proof.
  intros Hev. apply resolveEmbeddedTypefaces_glyph_event.
  rewrite for_each_app_events, elem_of_app. right.
  cbn [for_each]. rewrite events_bind, elem_of_app. by left.
Qed.

Lemma no_match_sans_builders (fonts fonts' : FontMap) (family style : string) :
  sans_builders fonts = sans_builders fonts' ->
  Forall (fun e => matches (snd e) family style = false) fonts ->
  Forall (fun e => matches (snd e) family style = false) fonts'.
Proof.
  intros Heq.
  assert (H : forall l : FontMap,
    Forall (fun e => matches (snd e) family style = false) l
    <-> Forall (fun e => matches (snd e) family style = false) (sans_builders l)).
  { intros l. unfold sans_builders. rewrite Forall_fmap.
    apply Forall_proper; [|done]. by intros [n fi]. }
  by rewrite (H fonts), (H fonts'), Heq.
Qed.

(** X15: a glyph record whose ["ch"] is a string, and whose family or
    style is missing or whose ["ch"] is not one code point, wherever it
    stands in the glyph list: the embedded pass logs "Invalid glyph." for
    it and returns the result and the registry it returns for the list
    without that record. *)
Theorem resolveEmbeddedTypefaces_invalid_glyph (pre post : ArrayValue)
    (jchar : ObjectValue) (jch : string) (fonts : FontMap) :
  as_string (member jchar "ch") = Some jch ->
  as_string (member jchar "fFamily") = None
  \/ as_string (member jchar "style") = None
  \/ CountUTF8 jch <> 1%Z ->
  value (resolveEmbeddedTypefaces (pre ++ JObject jchar :: post) fonts)
  = value (resolveEmbeddedTypefaces (pre ++ post) fonts)
  /\ Log kError (InvalidGlyph jchar)
       ∈ events (resolveEmbeddedTypefaces (pre ++ JObject jchar :: post) fonts).
Proof.
  intros Hch Hbad.
  pose proof (embed_glyph_invalid_step
                (value (for_each embed_glyph pre (fonts, None))) jchar jch Hch Hbad)
    as Hstep.
  split.
  - apply skipped_record_value. by rewrite Hstep.
  - apply record_event. rewrite Hstep. by left.
Qed.

(** X16: a well-formed glyph record whose code point is outside the
    range of [SkGlyphID] (0 to 65535), wherever it stands in the glyph
    list: the embedded pass logs "Unsupported glyph ID." for it and
    returns the result and the registry it returns for the list without
    that record. *)
Theorem resolveEmbeddedTypefaces_unsupported_glyph_id (pre post : ArrayValue)
    (jchar : ObjectValue) (jch jfamily jstyle : string) (fonts : FontMap) :
  as_string (member jchar "ch") = Some jch ->
  as_string (member jchar "fFamily") = Some jfamily ->
  as_string (member jchar "style") = Some jstyle ->
  CountUTF8 jch = 1%Z ->
  (NextUTF8 jch < 0 \/ 65535 < NextUTF8 jch)%Z ->
  value (resolveEmbeddedTypefaces (pre ++ JObject jchar :: post) fonts)
  = value (resolveEmbeddedTypefaces (pre ++ post) fonts)
  /\ Log kError (UnsupportedGlyphID jchar)
       ∈ events (resolveEmbeddedTypefaces (pre ++ JObject jchar :: post) fonts).
Proof.
  intros Hch Hfam Hsty Hcount Hrange.
  pose proof (embed_glyph_unsupported_id_step
                (value (for_each embed_glyph pre (fonts, None))) jchar jch jfamily
                jstyle Hch Hfam Hsty Hcount Hrange) as Hstep.
  split.
  - apply skipped_record_value. by rewrite Hstep.
  - apply record_event. rewrite Hstep. by left.
Qed.

(** X17: a well-formed glyph record whose family and style match no font
    of the registry, wherever it stands in the glyph list: the embedded
    pass logs "Font not found for codepoint" for it and returns the
    result and the registry it returns for the list without that record;
    the other glyphs are resolved as if it were not there. *)
Theorem resolveEmbeddedTypefaces_font_not_found (pre post : ArrayValue)
    (jchar : ObjectValue) (jch jfamily jstyle : string) (fonts : FontMap) :
  as_string (member jchar "ch") = Some jch ->
  as_string (member jchar "fFamily") = Some jfamily ->
  as_string (member jchar "style") = Some jstyle ->
  CountUTF8 jch = 1%Z ->
  SkTFitsIn_SkGlyphID (NextUTF8 jch) = true ->
  Forall (fun e => matches (snd e) (c_str jfamily) (c_str jstyle) = false) fonts ->
  value (resolveEmbeddedTypefaces (pre ++ JObject jchar :: post) fonts)
  = value (resolveEmbeddedTypefaces (pre ++ post) fonts)
  /\ Log kError (FontNotFound (NextUTF8 jch) (c_str jfamily) (c_str jstyle))
       ∈ events (resolveEmbeddedTypefaces (pre ++ JObject jchar :: post) fonts).
Proof.
  intros Hch Hfam Hsty Hcount Hfits Hall.
  pose proof (embed_glyphs_sans_builders pre (fonts, None)) as Hsans.
  destruct (value (for_each embed_glyph pre (fonts, None))) as [fonts1 c1] eqn:Hpre.
  cbn [fst] in Hsans.
  assert (Hall1 : Forall (fun e => matches (snd e) (c_str jfamily) (c_str jstyle)
                                   = false) fonts1).
  { by apply (no_match_sans_builders fonts fonts1). }
  pose proof (embed_glyph_font_not_found_step fonts1 c1 jchar jch jfamily jstyle
                Hch Hfam Hsty Hcount Hfits Hall1) as Hstep.
  split.
  - apply skipped_record_value. by rewrite Hpre, Hstep.
  - apply record_event. rewrite Hpre, Hstep. by left.
Qed.

(** X18: a well-formed glyph record whose outline extraction fails (no
    data object, a malformed group or item, an animated path), wherever
    it stands in the glyph list, adds no glyph to any font: the embedded
    pass returns the result and the registry it returns for the list
    without that record. *)
Theorem resolveEmbeddedTypefaces_outline_rejected (pre post : ArrayValue)
    (jchar : ObjectValue) (fonts : FontMap) :
  fst (parse_glyph_path (as_object (member jchar "data")) []) = false ->
  value (resolveEmbeddedTypefaces (pre ++ JObject jchar :: post) fonts)
  = value (resolveEmbeddedTypefaces (pre ++ post) fonts).
Proof.
  intros Hpath. apply skipped_record_value.
  destruct (value (for_each embed_glyph pre (fonts, None))) as [fonts1 c1].
  unfold embed_glyph. cbn [as_object].
  destruct (as_string (member jchar "ch")) as [jch|]; [|done].
  destruct (as_string (member jchar "fFamily")) as [jfamily|]; [|done].
  destruct (as_string (member jchar "style")) as [jstyle|]; [|done].
  destruct (negb (CountUTF8 jch =? 1)%Z); [done|].
  destruct (negb (SkTFitsIn_SkGlyphID (NextUTF8 jch))); [done|].
  destruct (locate_font fonts1 c1 (c_str jfamily) (c_str jstyle)) as [slot|];
    [|done].
  destruct (parse_glyph_path (as_object (member jchar "data")) []) as [ok path].
  cbn [fst] in Hpath. by subst ok.
Qed.


Lemma parse_glyph_items_fails (good rest : ArrayValue) (vbad : json) (path : SkPath) :
  Forall static_item good -> ~ static_item vbad ->
  parse_glyph_items (good ++ vbad :: rest) path
  = (false, path ++ flat_map item_path good).
Proof.
  intros Hgood Hbad. revert path.
  induction Hgood as [|v good (jshape & p & Hobj & Hks) _ IH]; intros path.
  - cbn [app parse_glyph_items flat_map]. rewrite app_nil_r.
    destruct (as_object vbad) as [jshape|] eqn:Hobj; [|done].
    destruct (attachPath (member jshape "ks")) as [[p|] [|a anims]] eqn:Hks;
      try done.
    destruct Hbad. by exists jshape, p.
  - cbn [app parse_glyph_items flat_map]. unfold item_path at 1.
    rewrite Hobj, Hks, IH. unfold addPath. cbn [fst default from_option id].
    by rewrite app_assoc.
Qed.

(** X22: when the extraction fails at a group, after groups that are all
    static and after the items [good] of that group, the path it leaves
    is the path it was given followed by the outlines of the groups and
    of the items read before the failure, in the order of the document:
    nothing is removed from the out-parameter, and what was read before
    the failure stays in it. *)
Theorem parse_glyph_path_extends (jdata : ObjectValue) (ggood grest : ArrayValue)
    (vgrp : json) (good : ArrayValue) (path : SkPath) :
  as_array (member jdata "shapes") = Some (ggood ++ vgrp :: grest) ->
  Forall static_group ggood ->
  fails_after vgrp good ->
  parse_glyph_path (Some jdata) path
  = (false, path ++ flat_map group_path ggood ++ flat_map item_path good).
Proof.
  intros Hshapes Hggood Hfail. unfold parse_glyph_path. rewrite Hshapes.
  clear Hshapes. revert path.
  induction Hggood as [|v ggood (jgrp & jit & Hobj & Hit & Hitems) _ IH];
    intros path.
  - cbn [app parse_glyph_groups flat_map].
    destruct Hfail as [[Hnone ->]|(jgrp & vbad & rest & Hobj & Hit & Hgood & Hbad)].
    + cbn [flat_map]. rewrite !app_nil_r.
      destruct (as_object vgrp) as [jgrp|]; [|done].
      cbn in Hnone. by rewrite Hnone.
    + rewrite Hobj, Hit, (parse_glyph_items_fails good rest vbad path Hgood Hbad).
      done.
  - cbn [app parse_glyph_groups flat_map]. unfold group_path at 1.
    rewrite Hobj, Hit, (parse_glyph_items_static _ _ Hitems), IH.
    cbn [default from_option id]. by rewrite !app_assoc.
Qed.

End Skottie.

(** * A sample animation

    Exact rationals stand for [float]; the collaborators are small
    doubles: a path property is animated when its ["a"] member is a number
    other than 0, the UTF-8 functions read ASCII, the resource provider
    has no font data, and the font manager knows the family ["Roboto"]. *)
Module Sample.

Abbreviation Q := QArith_base.Q.
Abbreviation Qmult := QArith_base.Qmult.

Definition kPtScale : Q := QArith_base.Qmake 1 100.
Definition zero : Q := QArith_base.Qmake 0 1.

Definition num (n : Z) : json Q := JNumber Q (QArith_base.Qmake n 1).
Definition str (s : string) : json Q := JString Q s.
Definition obj (ms : list (string * json Q)) : json Q := JObject Q (list_to_map ms).
Definition members (ms : list (string * json Q)) : gmap string (json Q) := list_to_map ms.

Definition outline : SkPath Q :=
  [ kMove Q (mkSkPoint Q (QArith_base.Qmake 0 1) (QArith_base.Qmake 0 1))
  ; kLine Q (mkSkPoint Q (QArith_base.Qmake 50 1) (QArith_base.Qmake 0 1))
  ; kLine Q (mkSkPoint Q (QArith_base.Qmake 50 1) (QArith_base.Qmake 100 1))
  ; kClose Q ].

Definition attachPath (v : json Q) : option (SkPath Q) * list unit :=
  match v with
  | JObject _ ks =>
      match member Q ks "a" with
      | JNumber _ a =>
          if QArith_base.Qeq_bool a zero then (Some outline, []) else (Some outline, [tt])
      | _ => (Some outline, [])
      end
  | _ => (None, [])
  end.

Definition CountUTF8 (s : string) : Z :=
  if forallb (fun c => Nat.ltb (nat_of_ascii c) 128) (list_ascii_of_string s)
  then Z.of_nat (String.length s) else (-1)%Z.

Definition NextUTF8 (s : string) : Z :=
  match s with
  | String c _ => Z.of_nat (nat_of_ascii c)
  | EmptyString => (-1)%Z
  end.

Definition makeFromLoadedFont (name path : string) : option (SkTypeface Q) := None.

Definition matchFamilyStyle (family : string) (style : SkFontStyle)
    : option (SkTypeface Q) :=
  if String.eqb family "Roboto" then Some (NativeTypeface Q 1) else None.

Definition legacyMakeTypeface (style : SkFontStyle) : option (SkTypeface Q) :=
  Some (NativeTypeface Q 0).

(** Font declarations. *)
Definition font_F1 : gmap string (json Q) :=
  members [("fName", str "F1"); ("fFamily", str "Roboto"); ("fStyle", str "Regular");
           ("fPath", str ""); ("ascent", num 75)].

Definition font_F2 : gmap string (json Q) :=
  members [("fName", str "F2"); ("fFamily", str "Roboto"); ("fStyle", str "Regular")].

(** No [fFamily]. *)
Definition font_F3 : gmap string (json Q) :=
  members [("fName", str "F3"); ("fStyle", str "Bold")].

(** A second declaration of the name ["F1"]. *)
Definition font_F1_again : gmap string (json Q) :=
  members [("fName", str "F1"); ("fFamily", str "Open Sans"); ("fStyle", str "Bold");
           ("ascent", num 70)].

Definition roboto (tf : option (SkTypeface Q)) : FontInfo Q :=
  mkFontInfo Q "Roboto" "Regular" "" zero tf [].

(** The registry after the first pass over the declarations of "F1" and
    "F2", in that order: two fonts of the same family and style. *)
Definition two_fonts : list (string * FontInfo Q) :=
  value Q (for_each Q (collect_font Q zero)
                    [JObject Q font_F1; JObject Q font_F2] []).

(** A registry whose only font is resolved. *)
Definition resolved_fonts : list (string * FontInfo Q) :=
  [("F1", roboto (Some (NativeTypeface Q 7)))].

(** Shapes: a static one and an animated one. *)
Definition static_shape : gmap string (json Q) :=
  members [("ty", str "sh"); ("ks", obj [("a", num 0); ("k", obj [])])].

Definition animated_shape : gmap string (json Q) :=
  members [("ty", str "sh"); ("ks", obj [("a", num 1); ("k", JArray Q [])])].

Definition mixed_group : gmap string (json Q) :=
  members [("ty", str "gr");
           ("it", JArray Q [JObject Q static_shape; JObject Q animated_shape])].

Definition mixed_data : gmap string (json Q) :=
  members [("shapes", JArray Q [JObject Q mixed_group])].

Definition static_data : json Q :=
  obj [("shapes", JArray Q [obj [("ty", str "gr"); ("it", JArray Q [JObject Q static_shape])]])].

(** The glyph "t" of Roboto Regular, advance 32.67. *)
Definition glyph_t : json Q :=
  obj [("ch", str "t"); ("data", static_data); ("fFamily", str "Roboto");
       ("size", num 50); ("style", str "Regular");
       ("w", JNumber Q (QArith_base.Qmake 3267 100))].

Definition fonts_json : gmap string (json Q) :=
  members [("list", JArray Q [JObject Q font_F1])].

(** The same data as records of the glyph list. *)
Definition static_glyph_data : gmap string (json Q) :=
  members [("shapes",
            JArray Q [obj [("ty", str "gr"); ("it", JArray Q [JObject Q static_shape])]])].

Definition glyph_t_record : gmap string (json Q) :=
  members [("ch", str "t"); ("data", JObject Q static_glyph_data);
           ("fFamily", str "Roboto"); ("size", num 50); ("style", str "Regular");
           ("w", JNumber Q (QArith_base.Qmake 3267 100))].

(** No ["style"]. *)
Definition glyph_no_style : gmap string (json Q) :=
  members [("ch", str "t"); ("fFamily", str "Roboto")].

(** A glyph of a family that is not declared. *)
Definition glyph_arial : gmap string (json Q) :=
  members [("ch", str "a"); ("fFamily", str "Arial"); ("style", str "Regular")].

(** A glyph with an animated shape. *)
Definition glyph_animated : gmap string (json Q) :=
  members [("ch", str "x"); ("data", JObject Q mixed_data);
           ("fFamily", str "Roboto"); ("style", str "Regular")].

(** Doubles of the UTF-8 functions that read every string as the one
    code point U+1F600, which is beyond [SkGlyphID]. *)
Definition wide_CountUTF8 (s : string) : Z := 1%Z.
Definition wide_NextUTF8 (s : string) : Z := 128512%Z.

(** A font list that declares "F1" twice. *)
Definition fonts_json3 : gmap string (json Q) :=
  members [("list", JArray Q [JObject Q font_F1; JObject Q font_F1_again;
                              JObject Q font_F2])].

(** The entry of "F1" after the first pass. *)
Definition font_F1_info : FontInfo Q :=
  mkFontInfo Q "Roboto" "Regular" "" (QArith_base.Qmake 75 1) None [].

End Sample.

Abbreviation sample_parse_glyph_path :=
  (parse_glyph_path Sample.Q unit Sample.attachPath).
Abbreviation sample_resolveEmbeddedTypefaces :=
  (resolveEmbeddedTypefaces Sample.Q Sample.Qmult Sample.kPtScale Sample.zero unit
     Sample.attachPath Sample.CountUTF8 Sample.NextUTF8).
Abbreviation sample_resolveNativeTypefaces :=
  (resolveNativeTypefaces Sample.Q Sample.makeFromLoadedFont Sample.matchFamilyStyle
     Sample.legacyMakeTypeface).
Abbreviation sample_parseFonts :=
  (parseFonts Sample.Q Sample.Qmult Sample.kPtScale Sample.zero unit
     Sample.attachPath Sample.CountUTF8 Sample.NextUTF8 Sample.makeFromLoadedFont
     Sample.matchFamilyStyle Sample.legacyMakeTypeface).
Abbreviation sample_collect :=
  (for_each Sample.Q (collect_font Sample.Q Sample.zero)).

(** * The properties on the sample *)

(** What the model computes on the sample: with exact rationals in place
    of [float], the glyph "t" with advance 32.67 is stored with advance
    3267/10000 in the typeface of "F1". *)
Example sample_embedded_first :
  option_map (fun e => option_map (fun tf =>
      match tf with
      | UserTypeface _ glyphs => map (fun g => (fGlyph _ g, fAdvance _ g)) glyphs
      | NativeTypeface _ _ => []
      end) (fTypeface _ (snd e)))
    (value _ (sample_parseFonts true (Some Sample.fonts_json)
                                (Some [Sample.glyph_t]) []) !! 0)
  = Some (Some [(116%Z, QArith_base.Qmake 3267 10000)]).
Proof. vm_compute. reflexivity. Qed.

(** C1 fails as stated: on a null input the extractor does not succeed. *)
Lemma parse_glyph_path_null_is_failure :
  sample_parse_glyph_path None [] <> (true, []).
Proof. vm_compute. discriminate. Qed.

(** C1, as amended, on the sample. *)
Example parse_glyph_path_space_glyph :
  sample_parse_glyph_path (Some ∅) [] = (true, []).
Proof. reflexivity. Qed.

(** C3 fails as stated: the result for ["BoldItalicFoo"] is not (Bold,
    Italic) with a warning for ["Foo"]. *)
Lemma FontStyle_BoldItalicFoo_not_as_stated :
  FontStyle Sample.Q "BoldItalicFoo"
  <> (mkSkFontStyle kBold_Weight kNormal_Width kItalic_Slant,
      [Log Sample.Q kWarning (UnknownFontStyle Sample.Q "Foo")]).
Proof. vm_compute. discriminate. Qed.

(** C4 fails as stated: with two fonts of the same family and style the
    lookup returns the second (slot 1), not the first registered (slot 0). *)
Lemma locate_font_not_first_match :
  locate_font Sample.Q Sample.two_fonts None "Roboto" "Regular"
  <> spec_first_match Sample.Q Sample.two_fonts "Roboto" "Regular".
Proof. vm_compute. discriminate. Qed.

Example locate_font_two_fonts :
  map fst Sample.two_fonts = ["F1"; "F2"]
  /\ locate_font Sample.Q Sample.two_fonts None "Roboto" "Regular" = Some 1
  /\ spec_first_match Sample.Q Sample.two_fonts "Roboto" "Regular" = Some 0.
Proof. repeat split; vm_compute; reflexivity. Qed.

Lemma locate_font_returns_last_match_witness :
  cache_valid Sample.Q Sample.two_fonts None
  /\ match locate_font Sample.Q Sample.two_fonts None "Roboto" "Regular" with
     | Some slot =>
         exists e, Sample.two_fonts !! slot = Some e
           /\ matches Sample.Q (snd e) "Roboto" "Regular" = true
           /\ forall slot' e', slot < slot' -> Sample.two_fonts !! slot' = Some e' ->
                matches Sample.Q (snd e') "Roboto" "Regular" = false
     | None =>
         forall slot e, Sample.two_fonts !! slot = Some e ->
           matches Sample.Q (snd e) "Roboto" "Regular" = false
     end.
Proof.
  split; [left; reflexivity|].
  apply (locate_font_returns_last_match Sample.Q Sample.two_fonts None
           "Roboto" "Regular").
  left; reflexivity.
Defined.

Lemma resolved_typeface_never_overwritten_witness :
  Sample.resolved_fonts !! 0
  = Some ("F1", Sample.roboto (Some (NativeTypeface Sample.Q 7)))
  /\ fTypeface Sample.Q (Sample.roboto (Some (NativeTypeface Sample.Q 7)))
     = Some (NativeTypeface Sample.Q 7)
  /\ snd (value _ (sample_resolveNativeTypefaces Sample.resolved_fonts)) !! 0
     = Some ("F1", Sample.roboto (Some (NativeTypeface Sample.Q 7)))
  /\ exists finfo',
       snd (value _ (sample_resolveEmbeddedTypefaces [Sample.glyph_t]
                       Sample.resolved_fonts)) !! 0
       = Some ("F1", finfo')
       /\ fTypeface Sample.Q finfo' = Some (NativeTypeface Sample.Q 7).
Proof.
  split; [reflexivity|]. split; [reflexivity|].
  apply (resolved_typeface_never_overwritten Sample.Q Sample.Qmult Sample.kPtScale
           Sample.zero unit Sample.attachPath Sample.CountUTF8 Sample.NextUTF8
           Sample.makeFromLoadedFont Sample.matchFamilyStyle
           Sample.legacyMakeTypeface Sample.resolved_fonts [Sample.glyph_t] 0 "F1"
           (Sample.roboto (Some (NativeTypeface Sample.Q 7)))
           (NativeTypeface Sample.Q 7));
    reflexivity.
Defined.

Lemma parse_glyph_path_not_static_fails_witness :
  not_static Sample.Q unit Sample.attachPath Sample.animated_shape
  /\ fst (sample_parse_glyph_path (Some Sample.mixed_data) []) = false.
Proof.
  assert (H : not_static Sample.Q unit Sample.attachPath Sample.animated_shape)
    by (right; vm_compute; discriminate).
  split; [exact H|].
  apply (parse_glyph_path_not_static_fails Sample.Q unit Sample.attachPath
           Sample.mixed_data
           [JObject _ Sample.mixed_group] (JObject _ Sample.mixed_group)
           Sample.mixed_group
           [JObject _ Sample.static_shape; JObject _ Sample.animated_shape]
           (JObject _ Sample.animated_shape) Sample.animated_shape []).
  - vm_compute; reflexivity.
  - left.
  - reflexivity.
  - vm_compute; reflexivity.
  - right; left.
  - reflexivity.
  - exact H.
Defined.

Lemma parseFonts_invalid_declaration_dropped_witness :
  missing_or_empty Sample.Q Sample.font_F3 "fFamily"
  /\ Log _ kError (InvalidFont _ Sample.font_F3)
       ∈ events _ (sample_collect ([JObject _ Sample.font_F1]
                     ++ JObject _ Sample.font_F3 :: [JObject _ Sample.font_F2]) [])
  /\ collect_font Sample.Q Sample.zero [] (JObject _ Sample.font_F3)
     = ([], [Log _ kError (InvalidFont _ Sample.font_F3)])
  /\ value _ (sample_collect ([JObject _ Sample.font_F1]
                                ++ JObject _ Sample.font_F3 :: [JObject _ Sample.font_F2]) [])
     = value _ (sample_collect ([JObject _ Sample.font_F1] ++ [JObject _ Sample.font_F2]) [])
  /\ length (value _ (sample_collect ([JObject _ Sample.font_F1]
                                ++ JObject _ Sample.font_F3 :: [JObject _ Sample.font_F2]) []))
     <= length (filter (fun v => is_Some (declared_name Sample.Q v))
                       ([JObject _ Sample.font_F1] ++ [JObject _ Sample.font_F2])).
Proof.
  assert (H : missing_or_empty Sample.Q Sample.font_F3 "fFamily")
    by (left; vm_compute; reflexivity).
  split; [exact H|].
  apply (parseFonts_invalid_declaration_dropped Sample.Q Sample.zero
           [JObject _ Sample.font_F1] [JObject _ Sample.font_F2] Sample.font_F3 []).
  right; left; exact H.
Defined.

Lemma parseFonts_embedded_success_skips_native_witness :
  fst (value _ (sample_resolveEmbeddedTypefaces [Sample.glyph_t]
                  (value _ (sample_collect [JObject _ Sample.font_F1] [])))) = true
  /\ (Enter _ NativePass
        ∉ events _ (sample_parseFonts true (Some Sample.fonts_json)
                                      (Some [Sample.glyph_t]) []))
  /\ value _ (sample_parseFonts true (Some Sample.fonts_json) (Some [Sample.glyph_t]) [])
     = snd (value _ (sample_resolveEmbeddedTypefaces [Sample.glyph_t]
                       (value _ (sample_collect [JObject _ Sample.font_F1] [])))).
Proof.
  split; [vm_compute; reflexivity|].
  apply (parseFonts_embedded_success_skips_native Sample.Q Sample.Qmult
           Sample.kPtScale Sample.zero unit Sample.attachPath Sample.CountUTF8
           Sample.NextUTF8 Sample.makeFromLoadedFont Sample.matchFamilyStyle
           Sample.legacyMakeTypeface (Some Sample.fonts_json)
           [JObject _ Sample.font_F1] [Sample.glyph_t] []);
    vm_compute; reflexivity.
Defined.

Lemma parseFonts_last_declaration_wins_witness :
  declared_name Sample.Q (JObject _ Sample.font_F1) = Some "F1"
  /\ declared_name Sample.Q (JObject _ Sample.font_F1_again) = Some "F1"
  /\ declared_name Sample.Q (JObject _ Sample.font_F2) = Some "F2"
  /\ entries_named Sample.Q
       (value _ (sample_collect ([JObject _ Sample.font_F1]
                   ++ JObject _ Sample.font_F1_again :: [JObject _ Sample.font_F2]) []))
       "F1" = 1
  /\ findFont Sample.Q
       (value _ (sample_collect ([JObject _ Sample.font_F1]
                   ++ JObject _ Sample.font_F1_again :: [JObject _ Sample.font_F2]) []))
       "F1"
     = Some (declared_info Sample.Q Sample.zero Sample.font_F1_again "Open Sans" "Bold").
Proof.
  split; [vm_compute; reflexivity|]. split; [vm_compute; reflexivity|].
  split; [vm_compute; reflexivity|].
  apply (parseFonts_last_declaration_wins Sample.Q Sample.zero
           [JObject _ Sample.font_F1] [JObject _ Sample.font_F2]
           Sample.font_F1_again "F1" "Open Sans" "Bold" []).
  - apply NoDup_nil_2.
  - vm_compute; reflexivity.
  - vm_compute; reflexivity.
  - vm_compute; reflexivity.
  - discriminate.
  - discriminate.
  - discriminate.
  - intros v Hv. apply list_elem_of_singleton in Hv. subst v.
    vm_compute. discriminate.
Defined.

(** * The further properties on the sample *)

Abbreviation sample_embed_glyph :=
  (embed_glyph Sample.Q Sample.Qmult Sample.kPtScale Sample.zero unit
     Sample.attachPath Sample.CountUTF8 Sample.NextUTF8).

Lemma FontStyle_unknown_style_witness :
  FontStyle Sample.Q "Condensed"
  = (mkSkFontStyle kNormal_Weight kNormal_Width kUpright_Slant,
     [Log _ kWarning (UnknownFontStyle _ "Condensed")]).
Proof.
  apply (FontStyle_unknown_style Sample.Q "Condensed").
  - discriminate.
  - repeat constructor.
  - repeat (constructor; [discriminate|]). constructor.
Defined.

Lemma FontStyle_token_then_rest_witness :
  find (related "Bold") gWeightMap = Some ("Bold", kBold_Weight)
  /\ FontStyle Sample.Q (String.append "Bold" "Italic")
     = (mkSkFontStyle kBold_Weight kNormal_Width kItalic_Slant, []).
Proof.
  split; [reflexivity|].
  destruct (FontStyle_token_then_rest Sample.Q "Bold" "Italic" kBold_Weight)
    as (_ & _ & Hslant & _); [reflexivity|].
  apply Hslant. left.
Defined.

Lemma parse_glyph_path_succeeds_iff_witness :
  as_array _ (member _ Sample.mixed_data "shapes") = Some [JObject _ Sample.mixed_group]
  /\ (fst (sample_parse_glyph_path (Some Sample.mixed_data) []) = true
      <-> Forall (static_group Sample.Q unit Sample.attachPath)
                 [JObject _ Sample.mixed_group]).
Proof.
  split; [vm_compute; reflexivity|].
  apply (parse_glyph_path_succeeds_iff Sample.Q unit Sample.attachPath
           Sample.mixed_data [JObject _ Sample.mixed_group] []).
  vm_compute; reflexivity.
Defined.

Lemma parse_glyph_path_success_appends_witness :
  fst (sample_parse_glyph_path (Some Sample.static_glyph_data) []) = true
  /\ snd (sample_parse_glyph_path (Some Sample.static_glyph_data) [])
     = [] ++ flat_map (group_path Sample.Q unit Sample.attachPath)
               (default [] (as_array _ (member _ Sample.static_glyph_data "shapes"))).
Proof.
  split; [vm_compute; reflexivity|].
  apply (parse_glyph_path_success_appends Sample.Q unit Sample.attachPath
           Sample.static_glyph_data []).
  vm_compute; reflexivity.
Defined.

Lemma parseFonts_declared_font_found_witness :
  declared_name Sample.Q (JObject _ Sample.font_F1_again) = Some "F1"
  /\ declared_name Sample.Q (JObject _ Sample.font_F2) = Some "F2"
  /\ exists finfo,
       findFont Sample.Q
         (value _ (sample_parseFonts true (Some Sample.fonts_json3)
                                     (Some [Sample.glyph_t]) []))
         "F1" = Some finfo
       /\ fFamily _ finfo = "Open Sans" /\ fStyle _ finfo = "Bold"
       /\ fPath _ finfo
          = default EmptyString (as_string _ (member _ Sample.font_F1_again "fPath"))
       /\ fAscentPct _ finfo
          = ParseDefault _ (member _ Sample.font_F1_again "ascent") Sample.zero.
Proof.
  split; [vm_compute; reflexivity|]. split; [vm_compute; reflexivity|].
  apply (parseFonts_declared_font_found Sample.Q Sample.Qmult Sample.kPtScale
           Sample.zero unit Sample.attachPath Sample.CountUTF8 Sample.NextUTF8
           Sample.makeFromLoadedFont Sample.matchFamilyStyle
           Sample.legacyMakeTypeface true (Some Sample.fonts_json3)
           (Some [Sample.glyph_t]) [JObject _ Sample.font_F1]
           [JObject _ Sample.font_F2] Sample.font_F1_again "F1" "Open Sans" "Bold" []).
  - apply NoDup_nil_2.
  - vm_compute; reflexivity.
  - vm_compute; reflexivity.
  - vm_compute; reflexivity.
  - vm_compute; reflexivity.
  - discriminate.
  - discriminate.
  - discriminate.
  - intros v Hv. apply list_elem_of_singleton in Hv. subst v.
    vm_compute. discriminate.
Defined.

Lemma parseFonts_undeclared_font_not_found_witness :
  declared_name Sample.Q (JObject _ Sample.font_F1) = Some "F1"
  /\ findFont Sample.Q
       (value _ (sample_parseFonts true (Some Sample.fonts_json)
                                   (Some [Sample.glyph_t]) []))
       "F9" = None.
Proof.
  split; [vm_compute; reflexivity|].
  apply (parseFonts_undeclared_font_not_found Sample.Q Sample.Qmult Sample.kPtScale
           Sample.zero unit Sample.attachPath Sample.CountUTF8 Sample.NextUTF8
           Sample.makeFromLoadedFont Sample.matchFamilyStyle
           Sample.legacyMakeTypeface true (Some Sample.fonts_json)
           (Some [Sample.glyph_t]) [] "F9").
  - apply not_elem_of_nil.
  - intros jlist v Hlist Hv.
    assert (Hl : jlist = [JObject _ Sample.font_F1]).
    { vm_compute in Hlist. injection Hlist as <-. vm_compute. reflexivity. }
    subst jlist. apply list_elem_of_singleton in Hv. subst v.
    vm_compute. discriminate.
Defined.

Lemma resolveNativeTypefaces_tiers_witness :
  FontMap_find Sample.Q Sample.two_fonts "F1" = Some Sample.font_F1_info
  /\ FontMap_find Sample.Q
       (snd (value _ (sample_resolveNativeTypefaces Sample.two_fonts))) "F1"
     = Some (with_typeface _ Sample.font_F1_info
               (match Sample.makeFromLoadedFont (c_str "F1")
                                                (c_str (fPath _ Sample.font_F1_info)),
                      Sample.matchFamilyStyle
                        (c_str (fFamily _ Sample.font_F1_info))
                        (value _ (FontStyle Sample.Q
                                    (c_str (fStyle _ Sample.font_F1_info)))) with
                | Some tf, _ => Some tf
                | None, Some tf => Some tf
                | None, None =>
                    Sample.legacyMakeTypeface
                      (value _ (FontStyle Sample.Q
                                  (c_str (fStyle _ Sample.font_F1_info))))
                end)).
Proof.
  split; [vm_compute; reflexivity|].
  apply (resolveNativeTypefaces_tiers Sample.Q Sample.makeFromLoadedFont
           Sample.matchFamilyStyle Sample.legacyMakeTypeface Sample.two_fonts "F1"
           Sample.font_F1_info).
  - vm_compute; reflexivity.
  - reflexivity.
Defined.

Lemma resolveNativeTypefaces_again_witness :
  fst (value _ (sample_resolveNativeTypefaces Sample.two_fonts)) = true
  /\ value _ (sample_resolveNativeTypefaces
                (snd (value _ (sample_resolveNativeTypefaces Sample.two_fonts))))
     = (true, snd (value _ (sample_resolveNativeTypefaces Sample.two_fonts)))
  /\ events _ (sample_resolveNativeTypefaces
                 (snd (value _ (sample_resolveNativeTypefaces Sample.two_fonts))))
     = [Enter _ NativePass].
Proof.
  split; [vm_compute; reflexivity|].
  apply (resolveNativeTypefaces_again Sample.Q Sample.makeFromLoadedFont
           Sample.matchFamilyStyle Sample.legacyMakeTypeface Sample.two_fonts).
  vm_compute; reflexivity.
Defined.

Lemma embed_glyph_updates_one_builder_witness :
  locate_font Sample.Q Sample.two_fonts None (c_str "Roboto") (c_str "Regular") = Some 1
  /\ Sample.two_fonts !! 1 = Some ("F2", Sample.roboto None)
  /\ (exists b,
        fst (value _ (sample_embed_glyph (Sample.two_fonts, None)
                        (JObject _ Sample.glyph_t_record))) !! 1
        = Some ("F2", with_builder _ (Sample.roboto None) b)
        /\ mkGlyphRec _ (Sample.NextUTF8 "t")
             (Sample.Qmult (ParseDefault _ (member _ Sample.glyph_t_record "w")
                                         Sample.zero) Sample.kPtScale)
             (transform_scale _ Sample.Qmult Sample.kPtScale Sample.kPtScale
                              Sample.outline) ∈ b)
  /\ (forall j, j <> 1 ->
        fst (value _ (sample_embed_glyph (Sample.two_fonts, None)
                        (JObject _ Sample.glyph_t_record))) !! j
        = Sample.two_fonts !! j)
  /\ length (fst (value _ (sample_embed_glyph (Sample.two_fonts, None)
                             (JObject _ Sample.glyph_t_record))))
     = length Sample.two_fonts.
Proof.
  split; [vm_compute; reflexivity|]. split; [vm_compute; reflexivity|].
  apply (embed_glyph_updates_one_builder Sample.Q Sample.Qmult Sample.kPtScale
           Sample.zero unit Sample.attachPath Sample.CountUTF8 Sample.NextUTF8
           Sample.two_fonts None Sample.glyph_t_record "t" "Roboto" "Regular" 1
           Sample.outline "F2" (Sample.roboto None));
    vm_compute; reflexivity.
Defined.

Lemma parseFonts_native_end_to_end_witness :
  declared_name Sample.Q (JObject _ Sample.font_F1) = Some "F1"
  /\ findFont Sample.Q
       (value _ (sample_parseFonts false (Some Sample.fonts_json) None [])) "F1"
     = Some (with_typeface _ (declared_info _ Sample.zero Sample.font_F1
                                            "Roboto" "Regular")
               (Some (NativeTypeface _ 1))).
Proof.
  split; [vm_compute; reflexivity|].
  apply (parseFonts_native_end_to_end Sample.Q Sample.Qmult Sample.kPtScale
           Sample.zero unit Sample.attachPath Sample.CountUTF8 Sample.NextUTF8
           Sample.makeFromLoadedFont Sample.matchFamilyStyle
           Sample.legacyMakeTypeface false (Some Sample.fonts_json) [] []
           Sample.font_F1 "F1" "Roboto" "Regular" []).
  - apply NoDup_nil_2.
  - vm_compute; reflexivity.
  - vm_compute; reflexivity.
  - vm_compute; reflexivity.
  - vm_compute; reflexivity.
  - discriminate.
  - discriminate.
  - discriminate.
  - intros v Hv. by apply elem_of_nil in Hv.
Defined.

Lemma resolveEmbeddedTypefaces_invalid_glyph_witness :
  as_string _ (member _ Sample.glyph_no_style "style") = None
  /\ value _ (sample_resolveEmbeddedTypefaces
                ([Sample.glyph_t] ++ JObject _ Sample.glyph_no_style :: [])
                Sample.two_fonts)
     = value _ (sample_resolveEmbeddedTypefaces ([Sample.glyph_t] ++ [])
                                                Sample.two_fonts)
  /\ Log _ kError (InvalidGlyph _ Sample.glyph_no_style)
       ∈ events _ (sample_resolveEmbeddedTypefaces
                     ([Sample.glyph_t] ++ JObject _ Sample.glyph_no_style :: [])
                     Sample.two_fonts).
Proof.
  split; [vm_compute; reflexivity|].
  apply (resolveEmbeddedTypefaces_invalid_glyph Sample.Q Sample.Qmult
           Sample.kPtScale Sample.zero unit Sample.attachPath Sample.CountUTF8
           Sample.NextUTF8 [Sample.glyph_t] [] Sample.glyph_no_style "t"
           Sample.two_fonts).
  - vm_compute; reflexivity.
  - right; left. vm_compute; reflexivity.
Defined.

Lemma resolveEmbeddedTypefaces_unsupported_glyph_id_witness :
  (65535 < Sample.wide_NextUTF8 "t")%Z
  /\ value _ (resolveEmbeddedTypefaces Sample.Q Sample.Qmult Sample.kPtScale
                Sample.zero unit Sample.attachPath Sample.wide_CountUTF8
                Sample.wide_NextUTF8 ([] ++ JObject _ Sample.glyph_t_record :: [])
                Sample.two_fonts)
     = value _ (resolveEmbeddedTypefaces Sample.Q Sample.Qmult Sample.kPtScale
                  Sample.zero unit Sample.attachPath Sample.wide_CountUTF8
                  Sample.wide_NextUTF8 ([] ++ []) Sample.two_fonts)
  /\ Log _ kError (UnsupportedGlyphID _ Sample.glyph_t_record)
       ∈ events _ (resolveEmbeddedTypefaces Sample.Q Sample.Qmult Sample.kPtScale
                     Sample.zero unit Sample.attachPath Sample.wide_CountUTF8
                     Sample.wide_NextUTF8
                     ([] ++ JObject _ Sample.glyph_t_record :: []) Sample.two_fonts).
Proof.
  split; [reflexivity|].
  apply (resolveEmbeddedTypefaces_unsupported_glyph_id Sample.Q Sample.Qmult
           Sample.kPtScale Sample.zero unit Sample.attachPath Sample.wide_CountUTF8
           Sample.wide_NextUTF8 [] [] Sample.glyph_t_record "t" "Roboto" "Regular"
           Sample.two_fonts).
  - vm_compute; reflexivity.
  - vm_compute; reflexivity.
  - vm_compute; reflexivity.
  - reflexivity.
  - right. reflexivity.
Defined.

Lemma resolveEmbeddedTypefaces_font_not_found_witness :
  Forall (fun e => matches Sample.Q (snd e) (c_str "Arial") (c_str "Regular") = false)
         Sample.two_fonts
  /\ value _ (sample_resolveEmbeddedTypefaces
                ([Sample.glyph_t] ++ JObject _ Sample.glyph_arial :: [Sample.glyph_t])
                Sample.two_fonts)
     = value _ (sample_resolveEmbeddedTypefaces
                  ([Sample.glyph_t] ++ [Sample.glyph_t]) Sample.two_fonts)
  /\ Log _ kError (FontNotFound _ (Sample.NextUTF8 "a") (c_str "Arial")
                                (c_str "Regular"))
       ∈ events _ (sample_resolveEmbeddedTypefaces
                     ([Sample.glyph_t] ++ JObject _ Sample.glyph_arial
                                       :: [Sample.glyph_t])
                     Sample.two_fonts).
Proof.
  assert (H : Forall (fun e => matches Sample.Q (snd e) (c_str "Arial")
                                       (c_str "Regular") = false) Sample.two_fonts)
    by (repeat constructor).
  split; [exact H|].
  apply (resolveEmbeddedTypefaces_font_not_found Sample.Q Sample.Qmult
           Sample.kPtScale Sample.zero unit Sample.attachPath Sample.CountUTF8
           Sample.NextUTF8 [Sample.glyph_t] [Sample.glyph_t] Sample.glyph_arial
           "a" "Arial" "Regular" Sample.two_fonts);
    try (vm_compute; reflexivity).
  exact H.
Defined.

Lemma resolveEmbeddedTypefaces_outline_rejected_witness :
  fst (sample_parse_glyph_path
         (as_object _ (member _ Sample.glyph_animated "data")) []) = false
  /\ value _ (sample_resolveEmbeddedTypefaces
                ([] ++ JObject _ Sample.glyph_animated :: [Sample.glyph_t])
                Sample.two_fonts)
     = value _ (sample_resolveEmbeddedTypefaces ([] ++ [Sample.glyph_t])
                                                Sample.two_fonts).
Proof.
  split; [vm_compute; reflexivity|].
  apply (resolveEmbeddedTypefaces_outline_rejected Sample.Q Sample.Qmult
           Sample.kPtScale Sample.zero unit Sample.attachPath Sample.CountUTF8
           Sample.NextUTF8 [] [Sample.glyph_t] Sample.glyph_animated
           Sample.two_fonts).
  vm_compute; reflexivity.
Defined.

(** C1, as amended, on the sample: a glyph object whose ["shapes"] is a
    number, not an array. *)
Lemma parse_glyph_path_missing_input_witness :
  as_array _ (member _ (Sample.members [("shapes", Sample.num 5)]) "shapes") = None
  /\ sample_parse_glyph_path None Sample.outline = (false, Sample.outline)
  /\ sample_parse_glyph_path (Some (Sample.members [("shapes", Sample.num 5)]))
                             Sample.outline
     = (true, Sample.outline).
Proof.
  split; [vm_compute; reflexivity|].
  apply (parse_glyph_path_missing_input Sample.Q unit Sample.attachPath
           (Sample.members [("shapes", Sample.num 5)]) Sample.outline).
  vm_compute; reflexivity.
Defined.

Lemma parse_glyph_path_extends_witness :
  fails_after Sample.Q unit Sample.attachPath (JObject _ Sample.mixed_group)
              [JObject _ Sample.static_shape]
  /\ sample_parse_glyph_path (Some Sample.mixed_data) []
     = (false, [] ++ flat_map (group_path Sample.Q unit Sample.attachPath) []
                  ++ flat_map (item_path Sample.Q unit Sample.attachPath)
                       [JObject _ Sample.static_shape]).
Proof.
  assert (H : fails_after Sample.Q unit Sample.attachPath
                (JObject _ Sample.mixed_group) [JObject _ Sample.static_shape]).
  { right. exists Sample.mixed_group, (JObject _ Sample.animated_shape), [].
    split; [reflexivity|]. split; [vm_compute; reflexivity|]. split.
    - constructor; [|constructor].
      exists Sample.static_shape, Sample.outline.
      split; [reflexivity|vm_compute; reflexivity].
    - intros (jshape & p & Hobj & Hks). injection Hobj as <-.
      vm_compute in Hks. discriminate Hks. }
  split; [exact H|].
  apply (parse_glyph_path_extends Sample.Q unit Sample.attachPath Sample.mixed_data
           [] [] (JObject _ Sample.mixed_group) [JObject _ Sample.static_shape] []).
  - vm_compute; reflexivity.
  - constructor.
  - exact H.
Defined.

Example parse_glyph_path_partial_outline :
  sample_parse_glyph_path (Some Sample.mixed_data) [] = (false, Sample.outline).
Proof. vm_compute. reflexivity. Qed.

(** * [float] as IEEE 754 binary32

    The model above leaves [float] open. Here it is the binary32 format
    of the Standard Library's [SpecFloat] (24 bits of precision, largest
    exponent 128), with its product rounded to nearest, ties to even. *)
Module Binary32.

Definition float : Type := spec_float.

(** [a * b] on [float]. *)
Definition mul (a b : float) : float := SFmul 24 128 a b.

(** [0.01f]: the float nearest 0.01, 10737418 * 2^-30. *)
Definition kPtScale : float := S754_finite false 10737418 (-30).

(** [0.0f]. *)
Definition zero : float := S754_zero false.

(** The float nearest 32.67: 8564244 * 2^-18. *)
Definition advance_32_67 : float := S754_finite false 8564244 (-18).

(** The float nearest 0.3267: 10962233 * 2^-25. *)
Definition nearest_0_3267 : float := S754_finite false 10962233 (-25).

(** The number a finite float stands for. *)
Definition to_Q (x : float) : option QArith_base.Q :=
  match x with
  | S754_zero _ => Some (QArith_base.Qmake 0 1)
  | S754_finite s m e =>
      Some (QArith_base.Qmult
              (QArith_base.Qmake (if s then Zneg m else Zpos m) 1)
              (QArith_base.Qpower (QArith_base.Qmake 2 1) e))
  | S754_infinity _ | S754_nan => None
  end.

(** A font "F1" of family Roboto, and the glyph "t" of that font with
    advance 32.67 and an empty outline. *)
Definition fonts : list (string * FontInfo float) :=
  [("F1", mkFontInfo float "Roboto" "Regular" "" zero None [])].

Definition glyph_t : gmap string (json float) :=
  list_to_map [("ch", JString float "t"); ("data", JObject float ∅);
               ("fFamily", JString float "Roboto");
               ("style", JString float "Regular");
               ("w", JNumber float advance_32_67)].

(** No path property is read for an empty outline. *)
Definition attachPath (v : json float) : option (SkPath float) * list unit :=
  (None, []).

(** The advance the embedded pass stores for [glyph_t]. *)
Definition stored_advance : option float :=
  match fst (value float
               (embed_glyph float mul kPtScale zero unit attachPath
                  Sample.CountUTF8 Sample.NextUTF8 (fonts, None)
                  (JObject float glyph_t))) with
  | (_, finfo) :: _ =>
      match fCustomBuilder float finfo with
      | g :: _ => Some (fAdvance float g)
      | [] => None
      end
  | [] => None
  end.

End Binary32.

(** The three literals are the floats nearest the decimal numbers: each
    is within half a unit in the last place. *)
Lemma binary32_literals_are_nearest :
  (QArith_base.Qlt (QArith_base.Qmake 17128487 524288) (QArith_base.Qmake 3267 100)
   /\ QArith_base.Qlt (QArith_base.Qmake 3267 100) (QArith_base.Qmake 17128489 524288))
  /\ (QArith_base.Qlt (QArith_base.Qmake 21474835 2147483648) (QArith_base.Qmake 1 100)
      /\ QArith_base.Qlt (QArith_base.Qmake 1 100)
                         (QArith_base.Qmake 21474837 2147483648))
  /\ (QArith_base.Qlt (QArith_base.Qmake 21924465 67108864)
                      (QArith_base.Qmake 3267 10000)
      /\ QArith_base.Qlt (QArith_base.Qmake 3267 10000)
                         (QArith_base.Qmake 21924467 67108864)).
Proof. repeat split. Qed.

(** [kPtScale] is not the number 0.01. *)
Lemma binary32_kPtScale_is_not_one_hundredth :
  Binary32.to_Q Binary32.kPtScale = Some (QArith_base.Qmake 10737418 1073741824)
  /\ ~ QArith_base.Qeq (QArith_base.Qmake 10737418 1073741824)
                       (QArith_base.Qmake 1 100).
Proof. split; [reflexivity|]. intros H. vm_compute in H. discriminate H. Qed.

(** C9 fails as stated: for the input advance 32.67 the advance stored is
    the float 10962232 * 2^-25. It is not the number 0.3267, and it is
    not the float nearest 0.3267 either. *)
Lemma advance_32_67_not_stored_as_0_3267 :
  Binary32.stored_advance = Some (S754_finite false 10962232 (-25))
  /\ S754_finite false 10962232 (-25) <> Binary32.nearest_0_3267
  /\ Binary32.to_Q (S754_finite false 10962232 (-25))
     = Some (QArith_base.Qmake 10962232 33554432)
  /\ ~ QArith_base.Qeq (QArith_base.Qmake 10962232 33554432)
                       (QArith_base.Qmake 3267 10000).
Proof.
  split; [vm_compute; reflexivity|]. split; [discriminate|].
  split; [reflexivity|]. intros H. vm_compute in H. discriminate H.
Qed.

(** C9, as amended: for every accepted glyph record, what the embedded
    pass stores in the builder of the glyph's font is the advance
    multiplied by the float [kPtScale] = 0.01f, a binary32 product that
    is rounded, and the outline scaled by [kPtScale] on both axes; for
    the input advance 32.67 the advance stored is the float
    10962232 * 2^-25 (about 0.32669997), one unit in the last place below
    the float nearest 0.3267. *)
Theorem embed_glyph_stores_binary32_product (Animator : Type)
    (attachPath : json Binary32.float -> option (SkPath Binary32.float) * list Animator)
    (CountUTF8 NextUTF8 : string -> Z)
    (fonts : list (string * FontInfo Binary32.float)) (current_font : option nat)
    (jchar : gmap string (json Binary32.float)) (jch jfamily jstyle : string)
    (slot : nat) (path : SkPath Binary32.float) :
  as_string _ (member _ jchar "ch") = Some jch ->
  as_string _ (member _ jchar "fFamily") = Some jfamily ->
  as_string _ (member _ jchar "style") = Some jstyle ->
  CountUTF8 jch = 1%Z ->
  SkTFitsIn_SkGlyphID (NextUTF8 jch) = true ->
  locate_font _ fonts current_font (c_str jfamily) (c_str jstyle) = Some slot ->
  parse_glyph_path _ Animator attachPath (as_object _ (member _ jchar "data")) []
  = (true, path) ->
  value _ (embed_glyph Binary32.float Binary32.mul Binary32.kPtScale Binary32.zero
             Animator attachPath CountUTF8 NextUTF8 (fonts, current_font)
             (JObject _ jchar))
  = (set_font_glyph _ fonts slot (NextUTF8 jch)
       (Binary32.mul (ParseDefault _ (member _ jchar "w") Binary32.zero)
                     Binary32.kPtScale)
       (transform_scale _ Binary32.mul Binary32.kPtScale Binary32.kPtScale path),
     Some slot)
  /\ Binary32.mul Binary32.advance_32_67 Binary32.kPtScale
     = S754_finite false 10962232 (-25)
  /\ Binary32.nearest_0_3267 = S754_finite false (10962232 + 1) (-25).
Proof.
  intros Hch Hfam Hsty Hcount Hfits Hloc Hpath. split; [|split].
  - by apply (embed_glyph_stores_scaled Binary32.float Binary32.mul Binary32.kPtScale
                Binary32.zero Animator attachPath CountUTF8 NextUTF8 fonts
                current_font jchar jch jfamily jstyle slot path).
  - vm_compute. reflexivity.
  - reflexivity.
Qed.

Lemma embed_glyph_stores_binary32_product_witness :
  locate_font _ Binary32.fonts None (c_str "Roboto") (c_str "Regular") = Some 0
  /\ ParseDefault _ (member _ Binary32.glyph_t "w") Binary32.zero
     = Binary32.advance_32_67
  /\ value _ (embed_glyph Binary32.float Binary32.mul Binary32.kPtScale Binary32.zero
                unit Binary32.attachPath Sample.CountUTF8 Sample.NextUTF8
                (Binary32.fonts, None) (JObject _ Binary32.glyph_t))
     = (set_font_glyph _ Binary32.fonts 0 (Sample.NextUTF8 "t")
          (Binary32.mul (ParseDefault _ (member _ Binary32.glyph_t "w") Binary32.zero)
                        Binary32.kPtScale)
          (transform_scale _ Binary32.mul Binary32.kPtScale Binary32.kPtScale []),
        Some 0)
  /\ Binary32.mul Binary32.advance_32_67 Binary32.kPtScale
     = S754_finite false 10962232 (-25)
  /\ Binary32.nearest_0_3267 = S754_finite false (10962232 + 1) (-25).
Proof.
  split; [vm_compute; reflexivity|]. split; [vm_compute; reflexivity|].
  apply (embed_glyph_stores_binary32_product unit Binary32.attachPath
           Sample.CountUTF8 Sample.NextUTF8 Binary32.fonts None Binary32.glyph_t
           "t" "Roboto" "Regular" 0 []);
    vm_compute; reflexivity.
Defined.
